(** * A shallow embedding of the Cloudflare remote MCP server

    The repository holds two variants of one worker ([src/index.ts], two
    revisions in one file): an HTTP-streamable variant ([POST /mcp], meant to
    be answered with one server-sent event) and a WebSocket variant (a Durable Object
    keeping a set of open sockets).  Both register the same tool, resource
    and prompt handlers on an MCP [Server].

    Conventions of the embedding:
    - a JavaScript value that is pure data is a [json] term; [undefined] is
      [None] of [option json];
    - a JavaScript [number] is a binary64, kept as the rational it denotes;
      arithmetic and [JSON.parse] round to the nearest binary64 ([round64]).
      [NaN] and the infinities are not modelled: a magnitude beyond the
      largest binary64 stays finite;
    - a JavaScript string is a [string] of UTF-8 bytes;
    - a computation that may [throw] returns a [completion];
    - what a method writes to a socket or to the console is returned as a
      list of [io] actions, in program order; [ws.send] and [ws.close] are
      taken to complete without a fault;
    - an awaited promise that never settles makes the [async] function
      [Never] return ([settled]);
    - [Math.random()] and [new Date().toISOString()] are inputs, gathered in
      a [world];
    - [Server.handleRequest] belongs to the MCP SDK: the transports take any
      [Server], and [dispatch] models the SDK's one from the specification. *)

From Stdlib Require Import ZArith QArith Qabs Qround Qpower Ascii String List Lia Lqa.
From stdpp Require Import gmap strings list pretty.

Open Scope Z_scope.
Set Warnings "-register-all".

(** ** JavaScript data *)

Inductive json : Type :=
| JNull
| JBool (b : bool)
| JNum (q : Q)
| JStr (s : string)
| JArr (items : list json)
| JObj (fields : list (string * json)).

(** A thrown [Error] object; only its [message] is ever read. *)
Record JsError : Type := Error { error_message : string }.

Inductive completion (A : Type) : Type :=
| Normal (a : A)
| Throw (e : JsError).
Arguments Normal {A} a.
Arguments Throw {A} e.

#[global] Instance completion_ret : MRet completion := fun _ a => Normal a.
#[global] Instance completion_bind : MBind completion := fun _ _ f c =>
  match c with
  | Normal a => f a
  | Throw e => Throw e
  end.

(** [try { body } catch (error) { handler }] *)
Definition try_catch {A} (body : completion A) (handler : JsError → A) : A :=
  match body with
  | Normal a => a
  | Throw error => handler error
  end.

(** *** Truthiness, [||] and property access *)

Definition Qis_zero (q : Q) : bool := Z.eqb (Qnum q) 0.

(** [ToBoolean]: [undefined], [null], [false], [0] and the empty string are falsy. *)
Definition truthy (v : option json) : bool :=
  match v with
  | None => false
  | Some JNull => false
  | Some (JBool b) => b
  | Some (JNum q) => negb (Qis_zero q)
  | Some (JStr s) => negb (String.eqb s "")
  | Some (JArr _) => true
  | Some (JObj _) => true
  end.

(** [v || null] *)
Definition or_null (v : option json) : json :=
  match v with
  | Some x => if truthy v then x else JNull
  | None => JNull
  end.

(** The last binding of a key wins, as in an object literal or in
    [JSON.parse] of a text with a repeated key. *)
Fixpoint lookup_field (k : string) (fields : list (string * json)) : option json :=
  match fields with
  | [] => None
  | (k', v) :: rest =>
      match lookup_field k rest with
      | Some v' => Some v'
      | None => if String.eqb k k' then Some v else None
      end
  end.

(** [v.k] on a value that came out of [JSON.parse]: reading a property of
    [null] throws a [TypeError]; a primitive or an array has no such own
    property and yields [undefined]. *)
Definition get_property (v : json) (k : string) : completion (option json) :=
  match v with
  | JNull => Throw (Error ("Cannot read properties of null (reading '" +:+ k +:+ "')"))
  | JObj fields => Normal (lookup_field k fields)
  | _ => Normal None
  end.

(** *** Numbers

    A finite binary64 is a rational, and the result of an arithmetic
    operation is the exact result rounded to the nearest binary64, a tie
    going to the even significand. *)

(** [floor (log2 x)] for [x > 0] *)
Definition binade (x : Q) : Z :=
  let e := Z.log2 (Qnum x) - Z.log2 (Z.pos (Qden x)) in
  if Qle_bool (2 ^ e) x then e else e - 1.

(** Rounding to the nearest integer, a tie going to the even one. *)
Definition round_half_even (x : Q) : Z :=
  let f := Qfloor x in
  match (x - inject_Z f ?= 1 # 2)%Q with
  | Lt => f
  | Gt => f + 1
  | Eq => if Z.even f then f else f + 1
  end.

(** The exponent of the last binary place of a binary64 near [x > 0]: 52
    places below the leading one, and never below the subnormal grid. *)
Definition ulp_exponent (x : Q) : Z := Z.max (binade x) (-1022) - 52.

Definition round_pos (x : Q) : Q :=
  let q := (2 ^ ulp_exponent x)%Q in
  (inject_Z (round_half_even (x / q)) * q)%Q.

Definition round_signed (x : Q) : Q :=
  match (x ?= 0)%Q with
  | Eq => 0%Q
  | Gt => round_pos x
  | Lt => (- round_pos (- x))%Q
  end.

(** The binary64 nearest to [x], as a fraction in lowest terms. *)
Definition round64 (x : Q) : Q := Qred (round_signed (Qred x)).

(** A binary64 is a rational that rounding leaves as it is. *)
Definition is_double (x : Q) : Prop := (round64 x == x)%Q.

(** [x + y], [x - y] and [x * y] on numbers *)
Definition Number_add (x y : Q) : Q := round64 (x + y).
Definition Number_sub (x y : Q) : Q := round64 (x - y).
Definition Number_mul (x y : Q) : Q := round64 (x * y).

(** [Math.floor(x)]: the floor of a binary64 is one. *)
Definition Math_floor (x : Q) : Q := inject_Z (Qfloor x).

(** For [x > 0]: the [n] with [10^(n-1) <= x < 10^n]. *)
Definition decimal_exponent (x : Q) : Z :=
  let guess := Z.of_nat (String.length (pretty (Qnum x))) -
               Z.of_nat (String.length (pretty (Z.pos (Qden x)))) in
  if Qle_bool (10 ^ guess) x then guess + 1 else guess.

(** Whether the decimal [s * 10^(n-k)] reads back as the binary64 [x]. *)
Definition reads_back (x : Q) (s n k : Z) : bool :=
  Qeq_bool (round64 (inject_Z s * 10 ^ (n - k))) x.

(** The [k] digits nearest to [x > 0] among those that read back as [x],
    with their decimal exponent. *)
Definition digits_with (x : Q) (n k : Z) : option (Z * Z) :=
  let t := (x * 10 ^ (k - n))%Q in
  let lo := Qfloor t in
  let hi := lo + 1 in
  let lo_first :=
    match (t - inject_Z lo ?= inject_Z hi - t)%Q with
    | Lt => true
    | Gt => false
    | Eq => Z.even lo
    end in
  let try s :=
    if reads_back x s n k
    then Some (if s =? 10 ^ k then (10 ^ (k - 1), n + 1) else (s, n))
    else None in
  match try (if lo_first then lo else hi) with
  | Some r => Some r
  | None => try (if lo_first then hi else lo)
  end.

(** The shortest digits that read back as [x], from [k] digits on: 17
    digits always do. *)
Fixpoint shortest_digits (fuel : nat) (x : Q) (n k : Z) : Z * Z * Z :=
  match fuel with
  | O => (Qfloor (x * 10 ^ (k - n)), n, k)
  | S fuel' =>
      match digits_with x n k with
      | Some (s, n') => (s, n', k)
      | None => shortest_digits fuel' x n (k + 1)
      end
  end.

Fixpoint zeros (n : nat) : string :=
  match n with
  | O => EmptyString
  | S n' => String "0" (zeros n')
  end.

(** The text of the [k] digits [s] with decimal exponent [n]: positional
    up to 21 integer digits and down to six leading zeros, with an exponent
    otherwise. *)
Definition format_digits (s n k : Z) : string :=
  let digits := pretty s in
  if ((k <=? n) && (n <=? 21))%bool then digits +:+ zeros (Z.to_nat (n - k))
  else if ((0 <? n) && (n <=? 21))%bool then
    substring 0 (Z.to_nat n) digits +:+ "." +:+
    substring (Z.to_nat n) (Z.to_nat (k - n)) digits
  else if ((-6 <? n) && (n <=? 0))%bool then
    "0." +:+ zeros (Z.to_nat (- n)) +:+ digits
  else
    let e := n - 1 in
    let exponent := (if e <? 0 then "e-" else "e+") +:+ pretty (Z.abs e) in
    if k =? 1 then digits +:+ exponent
    else substring 0 1 digits +:+ "." +:+
         substring 1 (Z.to_nat (k - 1)) digits +:+ exponent.

Definition positive_toString (x : Q) : string :=
  let '(s, n, k) := shortest_digits 17 x (decimal_exponent x) 1 in
  format_digits s n k.

(** [String(x)] for a number: the shortest decimal digits that read back
    as the same binary64. *)
Definition Number_toString (x : Q) : string :=
  let x := round64 x in
  match (x ?= 0)%Q with
  | Eq => "0"
  | Gt => positive_toString x
  | Lt => "-" +:+ positive_toString (- x)
  end.

(** ** [JSON.stringify] *)

Definition dquote : ascii := "034"%char.
Definition backslash : ascii := "092"%char.
Definition newline : ascii := "010"%char.

Definition str (c : ascii) : string := String c EmptyString.

Definition hex_digit (n : N) : ascii :=
  ascii_of_N (if (n <? 10)%N then 48 + n else 87 + n).

Definition quote_char (c : ascii) : string :=
  let n := N_of_ascii c in
  if (n =? 34)%N then str backslash +:+ str dquote
  else if (n =? 92)%N then str backslash +:+ str backslash
  else if (n =? 8)%N then str backslash +:+ "b"
  else if (n =? 12)%N then str backslash +:+ "f"
  else if (n =? 10)%N then str backslash +:+ "n"
  else if (n =? 13)%N then str backslash +:+ "r"
  else if (n =? 9)%N then str backslash +:+ "t"
  else if (n <? 32)%N then
    str backslash +:+ "u00" +:+ str (hex_digit (n / 16)) +:+ str (hex_digit (n mod 16))
  else str c.

Fixpoint quote_body (s : string) : string :=
  match s with
  | EmptyString => EmptyString
  | String c rest => quote_char c +:+ quote_body rest
  end.

Definition JSON_quote (s : string) : string :=
  str dquote +:+ quote_body s +:+ str dquote.

Fixpoint join (sep : string) (parts : list string) : string :=
  match parts with
  | [] => EmptyString
  | [p] => p
  | p :: rest => p +:+ sep +:+ join sep rest
  end.

(** [JSON.stringify(v)] *)
Fixpoint JSON_stringify (v : json) : string :=
  match v with
  | JNull => "null"
  | JBool true => "true"
  | JBool false => "false"
  | JNum q => Number_toString q
  | JStr s => JSON_quote s
  | JArr items => "[" +:+ join "," (map JSON_stringify items) +:+ "]"
  | JObj fields =>
      "{" +:+
      join "," (map (fun kv => JSON_quote (fst kv) +:+ ":" +:+ JSON_stringify (snd kv)) fields)
      +:+ "}"
  end.

(** [JSON.stringify(v, null, gap)], at the current indentation [indent] *)
Fixpoint JSON_stringify_indent (gap indent : string) (v : json) : string :=
  let inner := indent +:+ gap in
  let sep := "," +:+ str newline +:+ inner in
  match v with
  | JArr [] => "[]"
  | JArr items =>
      "[" +:+ str newline +:+ inner +:+
      join sep (map (JSON_stringify_indent gap inner) items)
      +:+ str newline +:+ indent +:+ "]"
  | JObj [] => "{}"
  | JObj fields =>
      "{" +:+ str newline +:+ inner +:+
      join sep (map (fun kv => JSON_quote (fst kv) +:+ ": " +:+
                               JSON_stringify_indent gap inner (snd kv)) fields)
      +:+ str newline +:+ indent +:+ "}"
  | _ => JSON_stringify v
  end.

(** [JSON.stringify(v, null, 2)] *)
Definition JSON_stringify_2 (v : json) : string :=
  JSON_stringify_indent "  " EmptyString v.

(** ** [JSON.parse] *)

Definition is_space (c : ascii) : bool :=
  let n := N_of_ascii c in
  ((n =? 32) || (n =? 9) || (n =? 10) || (n =? 13))%N.

Fixpoint skip_ws (l : list ascii) : list ascii :=
  match l with
  | c :: rest => if is_space c then skip_ws rest else l
  | [] => []
  end.

Definition digit_val (c : ascii) : option N :=
  let n := N_of_ascii c in
  if ((48 <=? n) && (n <=? 57))%N then Some (n - 48)%N else None.

Definition hex_val (c : ascii) : option N :=
  let n := N_of_ascii c in
  if ((48 <=? n) && (n <=? 57))%N then Some (n - 48)%N
  else if ((97 <=? n) && (n <=? 102))%N then Some (n - 87)%N
  else if ((65 <=? n) && (n <=? 70))%N then Some (n - 55)%N
  else None.

(** The longest prefix of decimal digits: its value, its length, the rest. *)
Fixpoint take_digits (l : list ascii) (acc : N) (count : nat) : N * nat * list ascii :=
  match l with
  | c :: rest =>
      match digit_val c with
      | Some d => take_digits rest (10 * acc + d)%N (S count)
      | None => (acc, count, l)
      end
  | [] => (acc, count, [])
  end.

(** The rest of [l] after its first character, when that is [c]. *)
Definition next_is (c : ascii) (l : list ascii) : option (list ascii) :=
  match l with
  | x :: rest => if Ascii.eqb x c then Some rest else None
  | [] => None
  end.

Definition parse_int_part (l : list ascii) : option (N * list ascii) :=
  match next_is "0" l with
  | Some rest => Some (0%N, rest)
  | None =>
      let '(n, count, rest) := take_digits l 0 0 in
      if Nat.eqb count 0 then None else Some (n, rest)
  end.

Definition parse_frac_part (l : list ascii) : option (N * nat * list ascii) :=
  match next_is "." l with
  | Some rest =>
      let '(f, count, rest') := take_digits rest 0 0 in
      if Nat.eqb count 0 then None else Some (f, count, rest')
  | None => Some (0%N, O, l)
  end.

Definition parse_exp_digits (negative : bool) (l : list ascii) : option (Z * list ascii) :=
  let '(e, count, rest) := take_digits l 0 0 in
  if Nat.eqb count 0 then None
  else Some (if negative then - Z.of_N e else Z.of_N e, rest).

Definition parse_exp_part (l : list ascii) : option (Z * list ascii) :=
  match l with
  | c :: rest =>
      if (Ascii.eqb c "e" || Ascii.eqb c "E")%bool then
        match next_is "+" rest with
        | Some rest' => parse_exp_digits false rest'
        | None =>
            match next_is "-" rest with
            | Some rest' => parse_exp_digits true rest'
            | None => parse_exp_digits false rest
            end
        end
      else Some (0, l)
  | [] => Some (0, l)
  end.

(** The number denoted by sign, integer digits, [count] fraction digits
    and a decimal exponent: the binary64 nearest to the decimal. *)
Definition decimal_value (negative : bool) (i f : N) (count : nat) (e : Z) : Q :=
  let m := Z.of_N (i * 10 ^ N.of_nat count + f) in
  let m := if negative then - m else m in
  let scale := e - Z.of_nat count in
  round64 (if 0 <=? scale then inject_Z (m * 10 ^ scale)
           else Qmake m (Z.to_pos (10 ^ (- scale)))).

Definition parse_number (l : list ascii) : option (Q * list ascii) :=
  let '(negative, l1) :=
    match next_is "-" l with
    | Some rest => (true, rest)
    | None => (false, l)
    end in
  '(i, l2) ← parse_int_part l1;
  '(f, count, l3) ← parse_frac_part l2;
  '(e, l4) ← parse_exp_part l3;
  Some (decimal_value negative i f count e, l4).

(** UTF-8 bytes of a code point. *)
Definition utf8_encode (cp : N) : list ascii :=
  (if cp <? 128 then [ascii_of_N cp]
   else if cp <? 2048 then
     [ascii_of_N (192 + cp / 64); ascii_of_N (128 + cp mod 64)]
   else if cp <? 65536 then
     [ascii_of_N (224 + cp / 4096); ascii_of_N (128 + (cp / 64) mod 64);
      ascii_of_N (128 + cp mod 64)]
   else
     [ascii_of_N (240 + cp / 262144); ascii_of_N (128 + (cp / 4096) mod 64);
      ascii_of_N (128 + (cp / 64) mod 64); ascii_of_N (128 + cp mod 64)])%N.

Definition hex4 (a b c d : ascii) : option N :=
  x ← hex_val a; y ← hex_val b; z ← hex_val c; w ← hex_val d;
  Some (((x * 16 + y) * 16 + z) * 16 + w)%N.

Definition simple_escape (c : ascii) : option ascii :=
  let n := N_of_ascii c in
  (if n =? 34 then Some dquote
   else if n =? 92 then Some backslash
   else if n =? 47 then Some "/"%char
   else if n =? 98 then Some "008"%char
   else if n =? 102 then Some "012"%char
   else if n =? 110 then Some "010"%char
   else if n =? 114 then Some "013"%char
   else if n =? 116 then Some "009"%char
   else None)%N.

Definition is_high_surrogate (cp : N) : bool := ((55296 <=? cp) && (cp <? 56320))%N.
Definition is_low_surrogate (cp : N) : bool := ((56320 <=? cp) && (cp <? 57344))%N.

(** The characters after an opening quote, up to the closing one; [acc]
    holds the decoded bytes so far, last first. *)
Fixpoint parse_string_body (l : list ascii) (acc : list ascii) : option (string * list ascii) :=
  match l with
  | [] => None
  | c :: rest =>
      if Ascii.eqb c dquote then Some (string_of_list_ascii (rev acc), rest)
      else if Ascii.eqb c backslash then
        match rest with
        | [] => None
        | e :: rest1 =>
            if Ascii.eqb e "u" then
              match rest1 with
              | a1 :: a2 :: a3 :: a4 :: rest2 =>
                  match hex4 a1 a2 a3 a4 with
                  | None => None
                  | Some hi =>
                      match rest2 with
                      | s :: u :: b1 :: b2 :: b3 :: b4 :: rest3 =>
                          match hex4 b1 b2 b3 b4 with
                          | Some lo =>
                              if (Ascii.eqb s backslash && Ascii.eqb u "u" &&
                                  is_high_surrogate hi && is_low_surrogate lo)%bool
                              then
                                let cp := (65536 + (hi - 55296) * 1024 + (lo - 56320))%N in
                                parse_string_body rest3 (rev_append (utf8_encode cp) acc)
                              else parse_string_body rest2 (rev_append (utf8_encode hi) acc)
                          | None => parse_string_body rest2 (rev_append (utf8_encode hi) acc)
                          end
                      | _ => parse_string_body rest2 (rev_append (utf8_encode hi) acc)
                      end
                  end
              | _ => None
              end
            else
              match simple_escape e with
              | Some d => parse_string_body rest1 (d :: acc)
              | None => None
              end
        end
      else if (N_of_ascii c <? 32)%N then None
      else parse_string_body rest (c :: acc)
  end.

(** A property key that is a canonical array index ([0] to [2^32 - 2]):
    an object enumerates these first, in ascending order. *)
Definition array_index (k : string) : option N :=
  let '(n, count, rest) := take_digits (list_ascii_of_string k) 0 0 in
  match rest with
  | [] => if (String.eqb (pretty n) k && (n <? 4294967295)%N)%bool then Some n else None
  | _ => None
  end.

(** Defining property [k] on an object under construction: a repeated key
    keeps its place and takes the new value; a new index key goes to its
    place among the index keys; any other new key goes last. *)
Fixpoint set_field (k : string) (v : json) (fields : list (string * json))
  : list (string * json) :=
  match fields with
  | [] => [(k, v)]
  | (k', v') :: rest =>
      if String.eqb k k' then (k, v) :: rest
      else
        match array_index k, array_index k' with
        | Some i, Some j =>
            if (i <? j)%N then (k, v) :: fields else (k', v') :: set_field k v rest
        | Some _, None => (k, v) :: fields
        | None, _ => (k', v') :: set_field k v rest
        end
  end.

Definition starts_with_literal (word l : list ascii) : option (list ascii) :=
  if decide (take (length word) l = word)
  then Some (drop (length word) l) else None.

(** Recursive descent.  Every call consumes a character before it recurses,
    so fuel above twice the length of the text is never exhausted
    ([parse_value_fuel] below). *)
Fixpoint parse_value (fuel : nat) (l : list ascii) : option (json * list ascii) :=
  match fuel with
  | O => None
  | S fuel' =>
      match skip_ws l with
      | [] => None
      | c :: rest =>
          if Ascii.eqb c dquote then
            '(s, rest') ← parse_string_body rest [];
            Some (JStr s, rest')
          else if Ascii.eqb c "[" then
            match next_is "]" (skip_ws rest) with
            | Some rest' => Some (JArr [], rest')
            | None => parse_elements fuel' (skip_ws rest) []
            end
          else if Ascii.eqb c "{" then
            match next_is "}" (skip_ws rest) with
            | Some rest' => Some (JObj [], rest')
            | None => parse_members fuel' (skip_ws rest) []
            end
          else if Ascii.eqb c "n" then
            rest' ← starts_with_literal (list_ascii_of_string "ull") rest;
            Some (JNull, rest')
          else if Ascii.eqb c "t" then
            rest' ← starts_with_literal (list_ascii_of_string "rue") rest;
            Some (JBool true, rest')
          else if Ascii.eqb c "f" then
            rest' ← starts_with_literal (list_ascii_of_string "alse") rest;
            Some (JBool false, rest')
          else
            '(q, rest') ← parse_number (c :: rest);
            Some (JNum q, rest')
      end
  end
with parse_elements (fuel : nat) (l : list ascii) (acc : list json)
  : option (json * list ascii) :=
  match fuel with
  | O => None
  | S fuel' =>
      '(v, rest) ← parse_value fuel' l;
      match next_is "," (skip_ws rest) with
      | Some rest' => parse_elements fuel' rest' (v :: acc)
      | None =>
          match next_is "]" (skip_ws rest) with
          | Some rest' => Some (JArr (rev (v :: acc)), rest')
          | None => None
          end
      end
  end
with parse_members (fuel : nat) (l : list ascii) (acc : list (string * json))
  : option (json * list ascii) :=
  match fuel with
  | O => None
  | S fuel' =>
      rest ← next_is dquote (skip_ws l);
      '(k, rest1) ← parse_string_body rest [];
      rest2 ← next_is ":" (skip_ws rest1);
      '(v, rest3) ← parse_value fuel' rest2;
      match next_is "," (skip_ws rest3) with
      | Some rest4 => parse_members fuel' rest4 (set_field k v acc)
      | None =>
          match next_is "}" (skip_ws rest3) with
          | Some rest4 => Some (JObj (set_field k v acc), rest4)
          | None => None
          end
      end
  end.

(** The message of the [SyntaxError] is the engine's; nothing here reads it. *)
Definition SyntaxError : JsError := Error "Unexpected token in JSON".

(** [JSON.parse(text)] *)
Definition JSON_parse (text : string) : completion json :=
  let l := list_ascii_of_string text in
  match parse_value (2 * length l + 2) l with
  | Some (v, rest) =>
      match skip_ws rest with
      | [] => Normal v
      | _ => Throw SyntaxError
      end
  | None => Throw SyntaxError
  end.

(** ** The registered handlers ([createMCPServer])

    Both variants register the same six handlers.  The SDK hands a handler
    the request it has already checked against the request schema, so a
    handler is a function of the fields it destructures from
    [request.params]. *)

(** What the non-deterministic builtins return during one handler run. *)
Record world : Type := {
  Math_random : Q;              (* Math.random(): a binary64 in [0, 1) *)
  Date_toISOString : string     (* new Date().toISOString() *)
}.

(** *** zod *)

(** The message of a [ZodError] lists the issues found; it is the
    library's text and nothing here reads it. *)
Definition ZodError (path expected : string) : JsError :=
  Error ("ZodError at [" +:+ path +:+ "]: expected " +:+ expected).

(** [z.object({...}).parse(args)]: the input has to be an object. *)
Definition z_object (args : option json) : completion (list (string * json)) :=
  match args with
  | Some (JObj fields) => Normal fields
  | _ => Throw (ZodError EmptyString "object")
  end.

(** [z.string()] on the property [path] *)
Definition z_string (path : string) (v : option json) : completion string :=
  match v with
  | Some (JStr s) => Normal s
  | _ => Throw (ZodError path "string")
  end.

(** [z.number()] on the property [path] *)
Definition z_number (path : string) (v : option json) : completion Q :=
  match v with
  | Some (JNum q) => Normal q
  | _ => Throw (ZodError path "number")
  end.

(** [schema.optional()]: [undefined] passes, anything else goes to [schema]. *)
Definition z_optional {A} (schema : option json → completion A) (v : option json)
  : completion (option A) :=
  match v with
  | None => Normal None
  | Some _ => a ← schema v; Normal (Some a)
  end.

(** Truthiness of an optional string: [undefined] and the empty string are falsy. *)
Definition truthy_string (s : option string) : bool :=
  match s with
  | Some x => negb (String.eqb x EmptyString)
  | None => false
  end.

(** [s || fallback] on an optional string *)
Definition or_string (s : option string) (fallback : string) : string :=
  match s with
  | Some x => if truthy_string s then x else fallback
  | None => fallback
  end.

Definition nl : string := str newline.

Definition text_content (text : string) : json :=
  JObj [("content", JArr [JObj [("type", JStr "text"); ("text", JStr text)]])].

(** *** Tools *)

Definition ListToolsHandler : json :=
  JObj [("tools", JArr [
    JObj [("name", JStr "echo");
          ("description", JStr "Echo back the input text");
          ("inputSchema", JObj [
             ("type", JStr "object");
             ("properties", JObj [
                ("text", JObj [("type", JStr "string");
                               ("description", JStr "Text to echo back")])]);
             ("required", JArr [JStr "text"])])];
    JObj [("name", JStr "get_time");
          ("description", JStr "Get the current time");
          ("inputSchema", JObj [("type", JStr "object"); ("properties", JObj [])])];
    JObj [("name", JStr "random_number");
          ("description", JStr "Generate a random number between min and max");
          ("inputSchema", JObj [
             ("type", JStr "object");
             ("properties", JObj [
                ("min", JObj [("type", JStr "number");
                              ("description", JStr "Minimum value")]);
                ("max", JObj [("type", JStr "number");
                              ("description", JStr "Maximum value")])]);
             ("required", JArr [JStr "min"; JStr "max"])])]])].

(** [Math.floor(Math.random() * (max - min + 1)) + min] *)
Definition randomNum (w : world) (min max : Q) : Q :=
  Number_add
    (Math_floor (Number_mul (Math_random w) (Number_add (Number_sub max min) 1)))
    min.

Definition CallToolHandler (w : world) (name : string) (args : option json)
  : completion json :=
  if String.eqb name "echo" then
    fields ← z_object args;
    text ← z_string "text" (lookup_field "text" fields);
    Normal (text_content ("Echo: " +:+ text))
  else if String.eqb name "get_time" then
    Normal (text_content ("Current time: " +:+ Date_toISOString w))
  else if String.eqb name "random_number" then
    fields ← z_object args;
    min ← z_number "min" (lookup_field "min" fields);
    max ← z_number "max" (lookup_field "max" fields);
    Normal (text_content
      ("Random number between " +:+ Number_toString min +:+ " and " +:+
       Number_toString max +:+ ": " +:+ Number_toString (randomNum w min max)))
  else Throw (Error ("Unknown tool: " +:+ name)).

(** *** Resources *)

Definition ListResourcesHandler : json :=
  JObj [("resources", JArr [
    JObj [("uri", JStr "cloudflare://worker-info");
          ("name", JStr "Worker Information");
          ("description", JStr "Information about this Cloudflare Worker");
          ("mimeType", JStr "application/json")];
    JObj [("uri", JStr "cloudflare://sample-data");
          ("name", JStr "Sample Data");
          ("description", JStr "Sample JSON data for testing");
          ("mimeType", JStr "application/json")]])].

Definition resource_contents (uri : string) (payload : json) : json :=
  JObj [("contents", JArr [
    JObj [("uri", JStr uri);
          ("mimeType", JStr "application/json");
          ("text", JStr (JSON_stringify_2 payload))]])].

Definition sample_item (id : Z) (name value : string) : json :=
  JObj [("id", JNum (inject_Z id)); ("name", JStr name); ("value", JStr value)].

Definition ReadResourceHandler (w : world) (uri : string) : completion json :=
  if String.eqb uri "cloudflare://worker-info" then
    Normal (resource_contents uri
      (JObj [("name", JStr "Cloudflare MCP Server");
             ("version", JStr "1.0.0");
             ("runtime", JStr "Cloudflare Workers");
             ("timestamp", JStr (Date_toISOString w));
             ("features", JArr [JStr "tools"; JStr "resources"; JStr "prompts"])]))
  else if String.eqb uri "cloudflare://sample-data" then
    Normal (resource_contents uri
      (JObj [("items", JArr [sample_item 1 "Item 1" "Value 1";
                             sample_item 2 "Item 2" "Value 2";
                             sample_item 3 "Item 3" "Value 3"]);
             ("metadata", JObj [("total", JNum 3);
                                ("generated", JStr (Date_toISOString w))])]))
  else Throw (Error ("Unknown resource: " +:+ uri)).

(** *** Prompts *)

Definition prompt_argument (name description : string) (required : bool) : json :=
  JObj [("name", JStr name); ("description", JStr description);
        ("required", JBool required)].

Definition ListPromptsHandler : json :=
  JObj [("prompts", JArr [
    JObj [("name", JStr "explain_code");
          ("description", JStr "Explain how a piece of code works");
          ("arguments", JArr [
             prompt_argument "code" "The code to explain" true;
             prompt_argument "language" "The programming language" false])];
    JObj [("name", JStr "debug_help");
          ("description", JStr "Help debug an issue");
          ("arguments", JArr [
             prompt_argument "error" "The error message or description" true;
             prompt_argument "context" "Additional context about the problem" false])]])].

Definition prompt_result (description text : string) : json :=
  JObj [("description", JStr description);
        ("messages", JArr [
           JObj [("role", JStr "user");
                 ("content", JObj [("type", JStr "text"); ("text", JStr text)])]])].

Definition GetPromptHandler (name : string) (args : option json) : completion json :=
  if String.eqb name "explain_code" then
    fields ← z_object args;
    code ← z_string "code" (lookup_field "code" fields);
    language ← z_optional (z_string "language") (lookup_field "language" fields);
    Normal (prompt_result "Explain how this code works"
      ("Please explain how this " +:+ or_string language "code" +:+ " works:" +:+
       nl +:+ nl +:+ "```" +:+ or_string language EmptyString +:+ nl +:+
       code +:+ nl +:+ "```" +:+ nl +:+ nl +:+
       "Break down the logic and explain what each part does."))
  else if String.eqb name "debug_help" then
    fields ← z_object args;
    error ← z_string "error" (lookup_field "error" fields);
    context ← z_optional (z_string "context") (lookup_field "context" fields);
    Normal (prompt_result "Help debug this issue"
      ("I'm encountering this error: " +:+ error +:+ nl +:+ nl +:+
       (match context with
        | Some c =>
            if truthy_string context then "Additional context: " +:+ c +:+ nl +:+ nl
            else EmptyString
        | None => EmptyString
        end) +:+
       "Can you help me understand what's causing this issue and how to fix it?"))
  else Throw (Error ("Unknown prompt: " +:+ name)).

(** ** The protocol dispatcher *)

(** [this.server]: the transports only ever call [handleRequest] on it.  The
    result is [undefined] ([None]) or a value. *)
Record Server : Type := {
  handleRequest : json → completion (option json)
}.

Definition result_envelope (id result : json) : json :=
  JObj [("jsonrpc", JStr "2.0"); ("id", id); ("result", result)].

(** Modelled from the spec: the request schemas of the SDK, which give a
    handler its [request.params]: a name or uri has to be a string, the
    arguments are passed as they are. *)
Definition string_param (params : option json) (key : string) : completion string :=
  match params with
  | Some p =>
      v ← get_property p key;
      match v with
      | Some (JStr s) => Normal s
      | _ => Throw (Error ("Invalid params: " +:+ key))
      end
  | None => Throw (Error ("Invalid params: " +:+ key))
  end.

(** Modelled from the spec: see [string_param]. *)
Definition json_param (params : option json) (key : string) : completion (option json) :=
  match params with
  | Some p => get_property p key
  | None => Normal None
  end.

(** Modelled from the spec: [Server.handleRequest] comes from the MCP SDK,
    whose code is not part of the repository.  Section 4.1 of the
    specification gives its contract, followed here: the envelope's method
    and id are read; notification-shaped input (no id, or a null id) yields
    [null]; otherwise the method selects one of the six registered handlers
    ([route]), which receives the request's params, and the handler's return
    value is wrapped in a result envelope echoing the id.  A fault of the
    handler is not caught here: it reaches the caller, whose [catch] turns
    it into the error envelope.  The specification names no behaviour for a
    method without a handler; the model throws.  The transports are modelled
    over any [Server], and what is proved of them alone holds whatever the
    SDK does. *)
Definition route (w : world) (method params : option json) : completion json :=
  match method with
  | Some (JStr m) =>
      if String.eqb m "tools/list" then Normal ListToolsHandler
      else if String.eqb m "tools/call" then
        name ← string_param params "name";
        args ← json_param params "arguments";
        CallToolHandler w name args
      else if String.eqb m "resources/list" then Normal ListResourcesHandler
      else if String.eqb m "resources/read" then
        uri ← string_param params "uri";
        ReadResourceHandler w uri
      else if String.eqb m "prompts/list" then Normal ListPromptsHandler
      else if String.eqb m "prompts/get" then
        name ← string_param params "name";
        args ← json_param params "arguments";
        GetPromptHandler name args
      else Throw (Error ("Method not found: " +:+ m))
  | _ => Throw (Error "Method not found")
  end.

(** Modelled from the spec: the entry point [Server.handleRequest] of the
    SDK, see [route]. *)
Definition dispatch (w : world) (envelope : json) : completion (option json) :=
  method ← get_property envelope "method";
  id ← get_property envelope "id";
  match id with
  | None | Some JNull => Normal (Some JNull)
  | Some id =>
      params ← get_property envelope "params";
      result ← route w method params;
      Normal (Some (result_envelope id result))
  end.

(** [createMCPServer()], as the server behaves during a handler run in
    which the builtins return [w]. *)
Definition createMCPServer (w : world) : Server :=
  {| handleRequest := dispatch w |}.

(** The error envelope both transports build in their [catch] branch. *)
Definition error_envelope (id : json) (error : JsError) : json :=
  JObj [("jsonrpc", JStr "2.0");
        ("id", id);
        ("error", JObj [("code", JNum (-32603));
                        ("message", JStr "Internal error");
                        ("data", JStr (error_message error))])].

(** Console output: the text, and the error object logged with it. *)
Inductive console : Type :=
| console_log (text : string)
| console_error (text : string) (error : JsError).

(** ** The HTTP-streamable variant *)

Record URL : Type := {
  protocol : string;
  host : string;
  pathname : string
}.

(** [request.url] is carried already parsed, as [new URL(request.url)] returns it. *)
Record Request : Type := {
  method : string;
  url : URL;
  headers : list (string * string);
  body : string
}.

Definition to_lower_char (c : ascii) : ascii :=
  let n := N_of_ascii c in
  if ((65 <=? n) && (n <=? 90))%N then ascii_of_N (n + 32) else c.

Fixpoint to_lower (s : string) : string :=
  match s with
  | EmptyString => EmptyString
  | String c rest => String (to_lower_char c) (to_lower rest)
  end.

(** [headers.get(name)]: header names compare without regard to case, and
    the values of a repeated header are joined with a comma and a space. *)
Fixpoint Headers_get (name : string) (hs : list (string * string)) : option string :=
  match hs with
  | [] => None
  | (k, v) :: rest =>
      if String.eqb (to_lower k) (to_lower name) then
        match Headers_get name rest with
        | Some more => Some (v +:+ ", " +:+ more)
        | None => Some v
        end
      else Headers_get name rest
  end.

(** An awaited promise either settles or stays pending for ever; in the
    second case the [async] function awaiting it never returns. *)
Inductive settled (A : Type) : Type :=
| Settles (a : A)
| Never.
Arguments Settles {A} a.
Arguments Never {A}.

(** The readable side of a [TransformStream]: the chunks that went through
    and whether the writer has closed it. *)
Record Stream : Type := {
  chunks : list string;
  closed : bool
}.

(** [new TransformStream()]: the identity transform, with no room for a
    chunk on either side. *)
Definition TransformStream : Stream := {| chunks := []; closed := false |}.

(** [await writer.write(chunk)].  The stream holds no chunk of its own: the
    promise of a write settles when the chunk is taken from the readable
    side, so it stays pending while nothing reads there ([reading] is
    [false]). *)
Definition writer_write (reading : bool) (s : Stream) (chunk : string) : settled Stream :=
  if reading then Settles {| chunks := chunks s ++ [chunk]; closed := closed s |}
  else Never.

(** [await writer.close()] with no write pending: the readable side is
    closed at once, read or not. *)
Definition writer_close (s : Stream) : Stream :=
  {| chunks := chunks s; closed := true |}.

(** A socket is an opaque handle; two handles are the same socket when equal. *)
Definition WebSocket : Type := positive.

Inductive Body : Type :=
| BodyNull
| BodyText (text : string)
| BodyStream (readable : Stream).

Record Response : Type := {
  status : Z;
  response_headers : list (string * string);
  response_body : Body;
  webSocket : option WebSocket
}.

Definition preflight_headers : list (string * string) :=
  [("Access-Control-Allow-Origin", "*");
   ("Access-Control-Allow-Methods", "GET, POST, OPTIONS");
   ("Access-Control-Allow-Headers", "Content-Type, Authorization")].

Module Http.

(** The Durable Object of this variant holds the server only. *)
Record MCPServerObject : Type := { server : Server }.

Definition handleMCPRequest (this : MCPServerObject) (jsonRpcMessage : json)
  : completion (option json) :=
  handleRequest (server this) jsonRpcMessage.

Definition sse_headers : list (string * string) :=
  [("Content-Type", "text/event-stream");
   ("Cache-Control", "no-cache");
   ("Connection", "keep-alive");
   ("Access-Control-Allow-Origin", "*");
   ("Access-Control-Allow-Headers", "Content-Type, Authorization")].

Definition error_headers : list (string * string) :=
  [("Content-Type", "application/json");
   ("Access-Control-Allow-Origin", "*")].

Definition json_headers : list (string * string) :=
  [("Content-Type", "application/json");
   ("Access-Control-Allow-Origin", "*")].

(** [data: ${JSON.stringify(response)}\n\n] *)
Definition sseData (response : json) : string :=
  "data: " +:+ JSON_stringify response +:+ nl +:+ nl.

Definition serverInfo (u : URL) : json :=
  JObj [("name", JStr "Cloudflare MCP Server");
        ("version", JStr "1.0.0");
        ("description", JStr "A Model Context Protocol server running on Cloudflare Workers");
        ("protocols", JArr [JStr "http-streamable"]);
        ("capabilities", JObj [("tools", JBool true); ("resources", JBool true);
                               ("prompts", JBool true)]);
        ("endpoints", JObj [("mcp", JStr (protocol u +:+ "//" +:+ host u +:+ "/mcp"))]);
        ("documentation", JStr "Send POST requests with JSON-RPC messages to /mcp endpoint");
        ("usage", JObj [("method", JStr "POST");
                        ("url", JStr "/mcp");
                        ("headers", JObj [("Content-Type", JStr "application/json")]);
                        ("body", JStr "JSON-RPC 2.0 message");
                        ("response", JStr "Server-Sent Events (text/event-stream)")])].

(** The [try] block of the [POST /mcp] branch.  [readable] is handed out
    only by the [return] at its end: while the block runs nothing reads
    from it. *)
Definition post_mcp (stub : MCPServerObject) (request : Request)
  : settled (completion Response) :=
  match (jsonRpcMessage ← JSON_parse (body request);
         handleMCPRequest stub jsonRpcMessage) with
  | Throw error => Settles (Throw error)
  | Normal response =>
      let readable := TransformStream in
      match (if truthy response then
               match response with
               | Some r => writer_write false readable (sseData r)
               | None => Settles readable
               end
             else Settles readable) with
      | Never => Never
      | Settles readable =>
          let readable := writer_close readable in
          Settles (Normal {| status := 200; response_headers := sse_headers;
                             response_body := BodyStream readable;
                             webSocket := None |})
      end
  end.

(** [fetch(request, env, ctx)]; [stub] is the Durable Object named
    [mcp-server].  When the promise it returns settles: the response and
    what was logged. *)
Definition fetch (stub : MCPServerObject) (request : Request)
  : settled (Response * list console) :=
  if String.eqb (method request) "OPTIONS" then
    Settles ({| status := 200; response_headers := preflight_headers;
                response_body := BodyNull; webSocket := None |}, [])
  else if (String.eqb (method request) "POST" &&
           String.eqb (pathname (url request)) "/mcp")%bool then
    match post_mcp stub request with
    | Never => Never
    | Settles (Normal r) => Settles (r, [])
    | Settles (Throw error) =>
        Settles ({| status := 500; response_headers := error_headers;
                    response_body := BodyText (JSON_stringify (error_envelope JNull error));
                    webSocket := None |},
                 [console_error "Error handling MCP request:" error])
    end
  else if String.eqb (pathname (url request)) "/" then
    Settles ({| status := 200; response_headers := json_headers;
                response_body := BodyText (JSON_stringify_2 (serverInfo (url request)));
                webSocket := None |}, [])
  else
    Settles ({| status := 404; response_headers := [];
                response_body := BodyText "Not Found"; webSocket := None |}, []).

End Http.

(** ** The WebSocket variant

    The Durable Object of this variant is modelled from the calls it
    receives: [acceptWebSocket], [webSocketMessage], [webSocketClose] and
    [webSocketError].  The worker's [fetch], which creates a
    [WebSocketPair] and hands its server end to the object through a
    Durable Object stub, depends on what the platform lets cross that call
    and is left out. *)

Module Ws.

(** The Durable Object: the server and the set of open sockets. *)
Record MCPServerObject : Type := {
  server : Server;
  sessions : gset WebSocket
}.

(** [constructor(ctx, env)] *)
Definition new_MCPServerObject (w : world) : MCPServerObject :=
  {| server := createMCPServer w; sessions := ∅ |}.

(** What a method does to the outside, in program order. *)
Inductive io : Type :=
| log (entry : console)
| ws_accept (ws : WebSocket)
| ws_send (ws : WebSocket) (data : string)
| ws_close (ws : WebSocket) (code : Z) (reason : string).

(** [message: string | ArrayBuffer] *)
Inductive Message : Type :=
| Text (s : string)
| Binary (bytes : list ascii).

(** [message as string] erases to nothing at run time: [JSON.parse]
    receives the value itself and converts it with [ToString], which for
    an [ArrayBuffer] is the text of [Object.prototype.toString]. *)
Definition ToString (message : Message) : string :=
  match message with
  | Text s => s
  | Binary _ => "[object ArrayBuffer]"
  end.

(** The [try] block of [webSocketMessage]. *)
Definition handle_message (this : MCPServerObject) (ws : WebSocket) (message : Message)
  : completion (list io) :=
  s ← match message with
      | Text s => Normal s
      | Binary _ => Throw (Error "Expected string message")
      end;
  jsonrpcMessage ← JSON_parse s;
  response ← handleRequest (server this) jsonrpcMessage;
  if truthy response then
    match response with
    | Some r => Normal [ws_send ws (JSON_stringify r)]
    | None => Normal []
    end
  else Normal [].

(** The inner [try] block, in the [catch] branch of [webSocketMessage]. *)
Definition reply_error (ws : WebSocket) (message : Message) (error : JsError)
  : completion (list io) :=
  parsedMessage ← JSON_parse (ToString message);
  id ← get_property parsedMessage "id";
  let errorResponse := error_envelope (or_null id) error in
  Normal [ws_send ws (JSON_stringify errorResponse)].

Definition webSocketMessage (this : MCPServerObject) (ws : WebSocket) (message : Message)
  : list io :=
  try_catch (handle_message this ws message) (fun error =>
    log (console_error "Error handling WebSocket message:" error) ::
    try_catch (reply_error ws message error) (fun _ =>
      [ws_close ws 1011 "Internal error"])).

Definition webSocketClose (this : MCPServerObject) (ws : WebSocket) (code : Z)
  (reason : string) : MCPServerObject * list io :=
  ({| server := server this; sessions := sessions this ∖ {[ws]} |},
   [log (console_log ("WebSocket closed: " +:+ Number_toString (inject_Z code) +:+
                      " " +:+ reason))]).

Definition webSocketError (this : MCPServerObject) (ws : WebSocket) (error : JsError)
  : MCPServerObject * list io :=
  ({| server := server this; sessions := sessions this ∖ {[ws]} |},
   [log (console_error "WebSocket error:" error)]).

Definition initMessage : json :=
  JObj [("jsonrpc", JStr "2.0");
        ("method", JStr "notifications/initialized");
        ("params", JObj [])].

Definition acceptWebSocket (this : MCPServerObject) (ws : WebSocket)
  : MCPServerObject * list io :=
  ({| server := server this; sessions := {[ws]} ∪ sessions this |},
   [ws_accept ws; ws_send ws (JSON_stringify initMessage)]).

(** *** The object as a state machine

    The runtime delivers one event at a time to the object.  The server of
    the object is one [Server] for the whole run: what is stated about a
    run does not depend on what the builtins return from one event to the
    next. *)
Inductive event : Type :=
| Accept (ws : WebSocket)
| Incoming (ws : WebSocket) (message : Message)
| Closed (ws : WebSocket) (code : Z) (reason : string)
| Failed (ws : WebSocket) (error : JsError).

Definition deliver (this : MCPServerObject) (ev : event) : MCPServerObject * list io :=
  match ev with
  | Accept ws => acceptWebSocket this ws
  | Incoming ws message => (this, webSocketMessage this ws message)
  | Closed ws code reason => webSocketClose this ws code reason
  | Failed ws error => webSocketError this ws error
  end.

(** The object and the whole output after a sequence of events. *)
Fixpoint run (this : MCPServerObject) (evs : list event) : MCPServerObject * list io :=
  match evs with
  | [] => (this, [])
  | ev :: rest =>
      let '(this1, out1) := deliver this ev in
      let '(this2, out2) := run this1 rest in
      (this2, out1 ++ out2)
  end.

End Ws.

(** * Vocabulary of the statements *)

Definition is_null (v : json) : bool :=
  match v with
  | JNull => true
  | _ => false
  end.

(** An envelope that is a request: it carries an id other than [null] and a
    method; the result is the id, the method and the params (if any). *)
Definition request_of (envelope : json) : option (json * string * option json) :=
  match envelope with
  | JObj fields =>
      match lookup_field "id" fields, lookup_field "method" fields with
      | Some id, Some (JStr m) =>
          if is_null id then None else Some (id, m, lookup_field "params" fields)
      | _, _ => None
      end
  | _ => None
  end.

(** An envelope that is a notification: an object with no [id]. *)
Definition is_notification (envelope : json) : bool :=
  match envelope with
  | JObj fields =>
      match lookup_field "id" fields with
      | None => true
      | Some _ => false
      end
  | _ => false
  end.

(** The envelope a client writes for a request. *)
Definition request_envelope (id : json) (m : string) (params : json) : json :=
  JObj [("jsonrpc", JStr "2.0"); ("id", id); ("method", JStr m); ("params", params)].

(** [s.includes(sub)] *)
Definition String_includes (s sub : string) : bool :=
  match index 0 sub s with
  | Some _ => true
  | None => false
  end.

(** The three capability classes and, for each, the method that invokes a
    capability, the parameter that names it, the text of the fault for an
    unknown name, and the names the listing handler advertises. *)
Inductive capability : Type := Tool | Resource | Prompt.

Definition call_method (c : capability) : string :=
  match c with
  | Tool => "tools/call"
  | Resource => "resources/read"
  | Prompt => "prompts/get"
  end.

Definition name_key (c : capability) : string :=
  match c with
  | Tool => "name"
  | Resource => "uri"
  | Prompt => "name"
  end.

Definition unknown_label (c : capability) : string :=
  match c with
  | Tool => "Unknown tool: "
  | Resource => "Unknown resource: "
  | Prompt => "Unknown prompt: "
  end.

Definition catalog_keys (listing key : string) (catalog : json) : list string :=
  match catalog with
  | JObj fields =>
      match lookup_field listing fields with
      | Some (JArr items) =>
          omap (fun item =>
                  match item with
                  | JObj fs =>
                      match lookup_field key fs with
                      | Some (JStr s) => Some s
                      | _ => None
                      end
                  | _ => None
                  end) items
      | _ => []
      end
  | _ => []
  end.

Definition registry (c : capability) : list string :=
  match c with
  | Tool => catalog_keys "tools" "name" ListToolsHandler
  | Resource => catalog_keys "resources" "uri" ListResourcesHandler
  | Prompt => catalog_keys "prompts" "name" ListPromptsHandler
  end.

(** What the [try] block of [POST /mcp] computes before it builds the stream. *)
Definition resolve (stub : Http.MCPServerObject) (request : Request)
  : completion (option json) :=
  jsonRpcMessage ← JSON_parse (body request);
  Http.handleMCPRequest stub jsonRpcMessage.

(** The two responses [POST /mcp] can give. *)
Definition event_stream (frames : list string) : Response :=
  {| status := 200; response_headers := Http.sse_headers;
     response_body := BodyStream {| chunks := frames; closed := true |};
     webSocket := None |}.

Definition error_response (error : JsError) : Response :=
  {| status := 500; response_headers := Http.error_headers;
     response_body := BodyText (JSON_stringify (error_envelope JNull error));
     webSocket := None |}.

(** Some action of [out] closes a socket. *)
Definition closes (out : list Ws.io) : Prop :=
  ∃ ws code reason, Ws.ws_close ws code reason ∈ out.

(** The socket an event is about. *)
Definition event_socket (ev : Ws.event) : WebSocket :=
  match ev with
  | Ws.Accept ws => ws
  | Ws.Incoming ws _ => ws
  | Ws.Closed ws _ _ => ws
  | Ws.Failed ws _ => ws
  end.

(** The field [k] of the [error] member of a response envelope. *)
Definition error_field (envelope : json) (k : string) : option json :=
  match envelope with
  | JObj fields =>
      match lookup_field "error" fields with
      | Some (JObj e) => lookup_field k e
      | _ => None
      end
  | _ => None
  end.

(** The frames sent to [ws] among the actions [out], in order. *)
Fixpoint sent_to (ws : WebSocket) (out : list Ws.io) : list string :=
  match out with
  | [] => []
  | Ws.ws_send ws' data :: rest =>
      if decide (ws' = ws) then data :: sent_to ws rest else sent_to ws rest
  | _ :: rest => sent_to ws rest
  end.

(** The method of an envelope written on the wire. *)
Definition frame_method (frame : string) : option json :=
  match JSON_parse frame with
  | Normal (JObj fields) => lookup_field "method" fields
  | _ => None
  end.

(** ** Sample inputs

    A world, a request and some envelopes for running the model. *)

Definition sample_world : world :=
  {| Math_random := 1 # 2; Date_toISOString := "2025-01-01T00:00:00.000Z" |}.

Definition POST_mcp (text : string) : Request :=
  {| method := "POST";
     url := {| protocol := "https:"; host := "example.workers.dev"; pathname := "/mcp" |};
     headers := [("Content-Type", "application/json")];
     body := text |}.

(** A notification, as a client writes it. *)
Definition initialized_notification : json :=
  JObj [("jsonrpc", JStr "2.0"); ("method", JStr "notifications/initialized")].

(** A request for the list of tools. *)
Definition list_tools_call : json :=
  JObj [("jsonrpc", JStr "2.0"); ("id", JNum 1); ("method", JStr "tools/list")].

(** A call of an unregistered tool, sent with the id 0. *)
Definition zero_id_call : json :=
  request_envelope (JNum 0) "tools/call"
    (JObj [("name", JStr "nope"); ("arguments", JObj [])]).

(** A call of an unregistered tool, and the error envelope it is answered with. *)
Definition nope_call : json :=
  request_envelope (JNum 1) "tools/call"
    (JObj [("name", JStr "nope"); ("arguments", JObj [])]).

Definition nope_answer (id : json) : json :=
  JObj [("jsonrpc", JStr "2.0");
        ("id", id);
        ("error", JObj [("code", JNum (-32603));
                        ("message", JStr "Internal error");
                        ("data", JStr "Unknown tool: nope")])].

(** ** The catalogs against the handlers *)

(** [v.k] of an object, [undefined] otherwise. *)
Definition field (k : string) (v : json) : option json :=
  match v with
  | JObj fields => lookup_field k fields
  | _ => None
  end.

Definition string_field (k : string) (v : json) : option string :=
  match field k v with
  | Some (JStr s) => Some s
  | _ => None
  end.

(** The descriptors a listing handler returns under [listing]. *)
Definition descriptors (listing : string) (catalog : json) : list json :=
  match field listing catalog with
  | Some (JArr items) => items
  | _ => []
  end.

(** A value has the JSON-schema type named [t], for the two type names the
    tool catalog uses for properties. *)
Definition has_type (t : string) (v : json) : bool :=
  if String.eqb t "string" then
    match v with JStr _ => true | _ => false end
  else if String.eqb t "number" then
    match v with JNum _ => true | _ => false end
  else false.

(** The names under [required] of an input schema. *)
Definition required_keys (schema : json) : list string :=
  match field "required" schema with
  | Some (JArr keys) =>
      omap (fun k => match k with JStr s => Some s | _ => None end) keys
  | _ => []
  end.

(** The type an input schema declares for the property [k]. *)
Definition declared_type (schema : json) (k : string) : option string :=
  match field "properties" schema with
  | Some properties =>
      match field k properties with
      | Some p => string_field "type" p
      | None => None
      end
  | None => None
  end.

(** The arguments are an object that gives every required property of the
    schema a value of the declared type. *)
Definition satisfies (schema : json) (args : option json) : bool :=
  match args with
  | Some (JObj fields) =>
      forallb (fun k =>
                 match lookup_field k fields, declared_type schema k with
                 | Some v, Some t => has_type t v
                 | _, _ => false
                 end) (required_keys schema)
  | _ => false
  end.

(** One entry of a prompt descriptor's [arguments] against the fields
    given: a string when present, and present when required. *)
Definition argument_ok (fields : list (string * json)) (argument : json) : bool :=
  match string_field "name" argument, field "required" argument with
  | Some name, Some (JBool required) =>
      match lookup_field name fields with
      | Some (JStr _) => true
      | Some _ => false
      | None => negb required
      end
  | _, _ => false
  end.

Definition prompt_arguments_ok (descriptor : json) (args : option json) : bool :=
  match args with
  | Some (JObj fields) => forallb (argument_ok fields) (descriptors "arguments" descriptor)
  | _ => false
  end.

(** A handler run that returns. *)
Definition succeeds {A} (c : completion A) : Prop := ∃ a, c = Normal a.

(** ** Numbers within range *)


(** ** Routes and sockets *)

(** The test that sends a request to the dispatcher. *)
Definition is_post_mcp (request : Request) : bool :=
  (String.eqb (method request) "POST" && String.eqb (pathname (url request)) "/mcp")%bool.

(** An action performed on the socket [ws]. *)
Definition acts_on (ws : WebSocket) (a : Ws.io) : bool :=
  match a with
  | Ws.log _ => false
  | Ws.ws_accept ws' => bool_decide (ws' = ws)
  | Ws.ws_send ws' _ => bool_decide (ws' = ws)
  | Ws.ws_close ws' _ _ => bool_decide (ws' = ws)
  end.

(** The actions performed on [ws] among [out], in order. *)
Fixpoint socket_actions (ws : WebSocket) (out : list Ws.io) : list Ws.io :=
  match out with
  | [] => []
  | a :: rest =>
      if acts_on ws a then a :: socket_actions ws rest else socket_actions ws rest
  end.

(** What an event does to the membership of [ws] in the open set: [Some
    true] when it opens it, [Some false] when it removes it. *)
Definition lifecycle (ws : WebSocket) (ev : Ws.event) : option bool :=
  match ev with
  | Ws.Accept ws' => if decide (ws' = ws) then Some true else None
  | Ws.Incoming _ _ => None
  | Ws.Closed ws' _ _ => if decide (ws' = ws) then Some false else None
  | Ws.Failed ws' _ => if decide (ws' = ws) then Some false else None
  end.

(** The last such event of a sequence, if any. *)
Fixpoint last_lifecycle (ws : WebSocket) (evs : list Ws.event) : option bool :=
  match evs with
  | [] => None
  | ev :: rest =>
      match last_lifecycle ws rest with
      | Some b => Some b
      | None => lifecycle ws ev
      end
  end.

(** * Properties *)

(** ** The JSON builtins on sample texts *)

Example parse_sample :
  JSON_parse (JSON_stringify
    (JObj [("jsonrpc", JStr "2.0"); ("id", JNum 7);
           ("params", JObj [("name", JStr "echo"); ("list", JArr [JNull; JBool true; JNum (-3 # 2)])])]))
  = Normal (JObj [("jsonrpc", JStr "2.0"); ("id", JNum 7);
           ("params", JObj [("name", JStr "echo"); ("list", JArr [JNull; JBool true; JNum (-3 # 2)])])]).
Proof. vm_compute. reflexivity. Qed.

Example parse_rejects_trailing_comma : JSON_parse "[1,]" = Throw SyntaxError.
Proof. reflexivity. Qed.

Example parse_null : JSON_parse "null" = Normal JNull.
Proof. reflexivity. Qed.

(** *** The parser never runs out of fuel

    Every parser returns a proper suffix of its input, so the fuel
    [JSON_parse] starts with is enough: more fuel gives the same result. *)

Lemma skip_ws_length l : (length (skip_ws l) ≤ length l)%nat.
Proof.
  induction l as [|c l IH]; simpl; [lia|]. destruct (is_space c); simpl; lia.
Qed.

Lemma next_is_length c l rest : next_is c l = Some rest → length l = S (length rest).
Proof.
  destruct l as [|x l]; simpl; [discriminate|].
  destruct (Ascii.eqb x c); [|discriminate]. by intros [= ->].
Qed.

Lemma take_digits_length l acc count n count' rest :
  take_digits l acc count = (n, count', rest) →
  (length rest + count' = length l + count)%nat.
Proof.
  revert acc count. induction l as [|c l IH]; intros acc count; simpl.
  - intros [= <- <- <-]. simpl. lia.
  - destruct (digit_val c).
    + intros H%IH. lia.
    + intros [= <- <- <-]. simpl. lia.
Qed.

Lemma parse_int_part_length l n rest :
  parse_int_part l = Some (n, rest) → (length rest < length l)%nat.
Proof.
  unfold parse_int_part. destruct (next_is "0" l) as [r|] eqn:E.
  - intros [= <- <-]. apply next_is_length in E. lia.
  - destruct (take_digits l 0 0) as [[m count] r] eqn:D.
    apply take_digits_length in D.
    destruct (Nat.eqb_spec count 0); [discriminate|]. intros [= <- <-]. lia.
Qed.

Lemma parse_frac_part_length l f count rest :
  parse_frac_part l = Some (f, count, rest) → (length rest ≤ length l)%nat.
Proof.
  unfold parse_frac_part. destruct (next_is "." l) as [r|] eqn:E.
  - apply next_is_length in E.
    destruct (take_digits r 0 0) as [[m c] r'] eqn:D. apply take_digits_length in D.
    destruct (Nat.eqb c 0); [discriminate|]. intros [= <- <- <-]. lia.
  - by intros [= <- <- <-].
Qed.

Lemma parse_exp_digits_length negative l e rest :
  parse_exp_digits negative l = Some (e, rest) → (length rest ≤ length l)%nat.
Proof.
  unfold parse_exp_digits. destruct (take_digits l 0 0) as [[m c] r] eqn:D.
  apply take_digits_length in D.
  destruct (Nat.eqb c 0); [discriminate|]. intros [= <- <-]. lia.
Qed.

Lemma parse_exp_part_length l e rest :
  parse_exp_part l = Some (e, rest) → (length rest ≤ length l)%nat.
Proof.
  unfold parse_exp_part. destruct l as [|c l]; [by intros [= <- <-]|].
  destruct (Ascii.eqb c "e" || Ascii.eqb c "E")%bool; [|by intros [= <- <-]].
  destruct (next_is "+" l) as [r|] eqn:E1; [|destruct (next_is "-" l) as [r|] eqn:E2];
    intros H%parse_exp_digits_length;
    repeat match goal with H : next_is _ _ = Some _ |- _ => apply next_is_length in H end;
    simpl; lia.
Qed.

Lemma parse_number_length l q rest :
  parse_number l = Some (q, rest) → (length rest < length l)%nat.
Proof.
  unfold parse_number.
  destruct (next_is "-" l) as [l1|] eqn:E;
    [apply next_is_length in E|];
    (destruct (parse_int_part _) as [[i l2]|] eqn:Hi; [|discriminate]; simpl;
     destruct (parse_frac_part l2) as [[[f count] l3]|] eqn:Hf; [|discriminate]; simpl;
     destruct (parse_exp_part l3) as [[e l4]|] eqn:He; [|discriminate]; simpl;
     intros [= <- <-];
     apply parse_int_part_length in Hi; apply parse_frac_part_length in Hf;
     apply parse_exp_part_length in He; lia).
Qed.

Lemma starts_with_literal_length word l rest :
  starts_with_literal word l = Some rest → (length rest ≤ length l)%nat.
Proof.
  unfold starts_with_literal. case_decide; [|discriminate].
  intros [= <-]. rewrite length_drop. lia.
Qed.

Lemma parse_string_body_length n : ∀ l acc s rest,
  (length l ≤ n)%nat →
  parse_string_body l acc = Some (s, rest) → (length rest < length l)%nat.
Proof.
  induction n as [|n IH]; intros l acc s rest Hn.
  - destruct l; [discriminate|simpl in Hn; lia].
  - destruct l as [|c l]; [discriminate|]. simpl in Hn.
    cbn [parse_string_body].
    destruct (Ascii.eqb c dquote); [intros [= <- <-]; simpl; lia|].
    destruct (Ascii.eqb c backslash).
    + destruct l as [|e l1]; [discriminate|]. simpl in Hn.
      destruct (Ascii.eqb e "u").
      * destruct l1 as [|a1 [|a2 [|a3 [|a4 l2]]]]; try discriminate. simpl in Hn.
        destruct (hex4 a1 a2 a3 a4) as [hi|]; [|discriminate].
        assert (Hl2 : ∀ acc', parse_string_body l2 acc' = Some (s, rest) →
                              (length rest < length l2)%nat).
        { intros acc'. apply IH. lia. }
        destruct l2 as [|b0 [|u [|b1 [|b2 [|b3 [|b4 l3]]]]]];
          try (intros H%Hl2; simpl in *; lia).
        destruct (hex4 b1 b2 b3 b4) as [lo|]; [|intros H%Hl2; simpl in *; lia].
        match goal with |- context [if ?b then _ else _] => destruct b end;
          [|intros H%Hl2; simpl in *; lia].
        intros H%IH; simpl in *; lia.
      * destruct (simple_escape e); [|discriminate].
        intros H%IH; simpl in *; lia.
    + destruct (N_of_ascii c <? 32)%N; [discriminate|].
      intros H%IH; simpl in *; lia.
Qed.

Ltac shorter :=
  repeat match goal with
         | H : next_is _ _ = Some _ |- _ => apply next_is_length in H
         | H : parse_string_body _ _ = Some _ |- _ =>
             apply (parse_string_body_length _ _ _ _ _ (le_n _)) in H
         | H : parse_number _ = Some _ |- _ => apply parse_number_length in H
         | H : starts_with_literal _ _ = Some _ |- _ => apply starts_with_literal_length in H
         end;
  simpl in *; lia.

Lemma parse_length fuel :
  (∀ l v rest, parse_value fuel l = Some (v, rest) → (length rest < length l)%nat)
  ∧ (∀ l acc v rest, parse_elements fuel l acc = Some (v, rest) →
       (length rest < length l)%nat)
  ∧ (∀ l acc v rest, parse_members fuel l acc = Some (v, rest) →
       (length rest < length l)%nat).
Proof.
  induction fuel as [|fuel (IHv & IHe & IHm)]; [repeat split; discriminate|].
  repeat split.
  - intros l v rest. simpl.
    pose proof (skip_ws_length l) as Hws.
    destruct (skip_ws l) as [|c l1]; [discriminate|]. simpl in Hws.
    pose proof (skip_ws_length l1) as Hws1.
    destruct (Ascii.eqb c dquote).
    { destruct (parse_string_body l1 []) as [[s r]|] eqn:E; [|discriminate].
      intros [= <- <-]. shorter. }
    destruct (Ascii.eqb c "[").
    { destruct (next_is "]" (skip_ws l1)) as [r|] eqn:E.
      - intros [= <- <-]. shorter.
      - intros H%IHe. shorter. }
    destruct (Ascii.eqb c "{").
    { destruct (next_is "}" (skip_ws l1)) as [r|] eqn:E.
      - intros [= <- <-]. shorter.
      - intros H%IHm. shorter. }
    destruct (Ascii.eqb c "n").
    { destruct (starts_with_literal _ l1) as [r|] eqn:E; [|discriminate].
      intros [= <- <-]. shorter. }
    destruct (Ascii.eqb c "t").
    { destruct (starts_with_literal _ l1) as [r|] eqn:E; [|discriminate].
      intros [= <- <-]. shorter. }
    destruct (Ascii.eqb c "f").
    { destruct (starts_with_literal _ l1) as [r|] eqn:E; [|discriminate].
      intros [= <- <-]. shorter. }
    destruct (parse_number (c :: l1)) as [[q r]|] eqn:E; [|discriminate].
    intros [= <- <-]. shorter.
  - intros l acc v rest. simpl.
    destruct (parse_value fuel l) as [[v1 r1]|] eqn:Hv; [|discriminate]. simpl.
    apply IHv in Hv. pose proof (skip_ws_length r1).
    destruct (next_is "," (skip_ws r1)) as [r2|] eqn:E1.
    + intros H'%IHe. shorter.
    + destruct (next_is "]" (skip_ws r1)) as [r2|] eqn:E2; [|discriminate].
      intros [= <- <-]. shorter.
  - intros l acc v rest. simpl.
    pose proof (skip_ws_length l).
    destruct (next_is dquote (skip_ws l)) as [r0|] eqn:E0; [|discriminate]. simpl.
    destruct (parse_string_body r0 []) as [[k r1]|] eqn:Hk; [|discriminate]. simpl.
    pose proof (skip_ws_length r1).
    destruct (next_is ":" (skip_ws r1)) as [r2|] eqn:E1; [|discriminate]. simpl.
    destruct (parse_value fuel r2) as [[v1 r3]|] eqn:Hv; [|discriminate]. simpl.
    apply IHv in Hv. pose proof (skip_ws_length r3).
    destruct (next_is "," (skip_ws r3)) as [r4|] eqn:E2.
    + intros H'%IHm. shorter.
    + destruct (next_is "}" (skip_ws r3)) as [r4|] eqn:E3; [|discriminate].
      intros [= <- <-]. shorter.
Qed.

Lemma parse_fuel_aux n :
  (∀ l f1 f2, length l = n → (2 * n + 1 ≤ f1)%nat → (2 * n + 1 ≤ f2)%nat →
     parse_value f1 l = parse_value f2 l)
  ∧ (∀ l acc f1 f2, length l = n → (2 * n + 2 ≤ f1)%nat → (2 * n + 2 ≤ f2)%nat →
       parse_elements f1 l acc = parse_elements f2 l acc)
  ∧ (∀ l acc f1 f2, length l = n → (2 * n + 2 ≤ f1)%nat → (2 * n + 2 ≤ f2)%nat →
       parse_members f1 l acc = parse_members f2 l acc).
Proof.
  induction n as [n IH] using lt_wf_ind.
  assert (Hv : ∀ l f1 f2, length l = n → (2 * n + 1 ≤ f1)%nat → (2 * n + 1 ≤ f2)%nat →
                 parse_value f1 l = parse_value f2 l).
  { intros l f1 f2 Hl H1 H2.
    destruct f1 as [|f1]; [lia|]. destruct f2 as [|f2]; [lia|]. simpl.
    pose proof (skip_ws_length l) as Hws.
    destruct (skip_ws l) as [|c l1]; [reflexivity|]. simpl in Hws.
    pose proof (skip_ws_length l1) as Hws1.
    destruct (IH (length (skip_ws l1))) as (_ & IHe & IHm); [lia|].
    rewrite (IHe (skip_ws l1) [] f1 f2), (IHm (skip_ws l1) [] f1 f2) by lia.
    reflexivity. }
  split; [exact Hv|]. split.
  - intros l acc f1 f2 Hl H1 H2.
    destruct f1 as [|f1]; [lia|]. destruct f2 as [|f2]; [lia|]. simpl.
    rewrite (Hv l f1 f2) by lia.
    destruct (parse_value f2 l) as [[v r1]|] eqn:E; [|reflexivity]. simpl.
    apply (proj1 (parse_length f2)) in E. pose proof (skip_ws_length r1).
    destruct (next_is "," (skip_ws r1)) as [r2|] eqn:E1; [|reflexivity].
    apply next_is_length in E1.
    destruct (IH (length r2)) as (_ & IHe & _); [lia|].
    apply IHe; lia.
  - intros l acc f1 f2 Hl H1 H2.
    destruct f1 as [|f1]; [lia|]. destruct f2 as [|f2]; [lia|]. simpl.
    pose proof (skip_ws_length l).
    destruct (next_is dquote (skip_ws l)) as [r0|] eqn:E0; [|reflexivity]. simpl.
    apply next_is_length in E0.
    destruct (parse_string_body r0 []) as [[k r1]|] eqn:Hk; [|reflexivity]. simpl.
    apply (parse_string_body_length _ _ _ _ _ (le_n _)) in Hk.
    pose proof (skip_ws_length r1).
    destruct (next_is ":" (skip_ws r1)) as [r2|] eqn:E1; [|reflexivity]. simpl.
    apply next_is_length in E1.
    destruct (IH (length r2)) as (IHv & _ & _); [lia|].
    rewrite (IHv r2 f1 f2) by lia.
    destruct (parse_value f2 r2) as [[v r3]|] eqn:E; [|reflexivity]. simpl.
    apply (proj1 (parse_length f2)) in E. pose proof (skip_ws_length r3).
    destruct (next_is "," (skip_ws r3)) as [r4|] eqn:E2; [|reflexivity].
    apply next_is_length in E2.
    destruct (IH (length r4)) as (_ & _ & IHm); [lia|].
    apply IHm; lia.
Qed.

(** More fuel than [JSON_parse] gives changes nothing. *)
Lemma parse_value_fuel l fuel :
  (2 * length l + 2 ≤ fuel)%nat → parse_value fuel l = parse_value (2 * length l + 2) l.
Proof. intros H. apply (proj1 (parse_fuel_aux (length l))); lia. Qed.

(** ** The registries *)

Example registry_tools : registry Tool = ["echo"; "get_time"; "random_number"].
Proof. reflexivity. Qed.

Example registry_resources :
  registry Resource = ["cloudflare://worker-info"; "cloudflare://sample-data"].
Proof. reflexivity. Qed.

Example registry_prompts : registry Prompt = ["explain_code"; "debug_help"].
Proof. reflexivity. Qed.

(** ** The dispatcher on requests and notifications *)

Lemma dispatch_request w envelope id m params :
  request_of envelope = Some (id, m, params) →
  dispatch w envelope =
    (result ← route w (Some (JStr m)) params; Normal (Some (result_envelope id result))).
Proof.
  destruct envelope as [| | | | |fields]; simpl; try discriminate.
  unfold dispatch; simpl.
  destruct (lookup_field "id" fields) as [i|]; [|discriminate].
  destruct (lookup_field "method" fields) as [[| | |s| |]|]; try discriminate.
  destruct i; simpl; intros [= <- <- <-]; try discriminate; reflexivity.
Qed.

Lemma dispatch_notification w envelope :
  is_notification envelope = true → dispatch w envelope = Normal (Some JNull).
Proof.
  destruct envelope as [| | | | |fields]; simpl; try discriminate.
  unfold dispatch; simpl.
  destruct (lookup_field "id" fields); [discriminate|reflexivity].
Qed.

Lemma string_param_object params key name :
  string_param params key = Normal name →
  ∃ fields, params = Some (JObj fields) ∧ lookup_field key fields = Some (JStr name).
Proof.
  destruct params as [[| | | | |fields]|]; simpl; try discriminate.
  destruct (lookup_field key fields) as [[| | |s| |]|] eqn:E; try discriminate.
  intros [= <-]. eauto.
Qed.

(** ** Tools *)

Lemma append_empty_r (s : string) : s +:+ EmptyString = s.
Proof.
  induction s as [|c s IH]; [reflexivity|].
  change (String c (s +:+ EmptyString) = String c s). by rewrite IH.
Qed.

Lemma echo_handler w fields s :
  lookup_field "text" fields = Some (JStr s) →
  CallToolHandler w "echo" (Some (JObj fields)) = Normal (text_content ("Echo: " +:+ s)).
Proof. intros H. unfold CallToolHandler. simpl. by rewrite H. Qed.

(** C7: for every string [s], [tools/call] of [echo] with arguments
    [{text: s}] returns [{content: [{type: "text", text: t}]}] with [t]
    exactly [Echo: ] followed by [s].  First at the registered handler, for
    the arguments object [{text: s}]; then through the dispatcher, for any
    request envelope that names [echo] and whose arguments carry [text: s]:
    the result of the response envelope is that content. *)
Theorem C7_echo_text (w : world) (s : string) :
  CallToolHandler w "echo" (Some (JObj [("text", JStr s)])) =
    Normal (JObj [("content", JArr [JObj [("type", JStr "text");
                                           ("text", JStr ("Echo: " +:+ s))]])])
  ∧ ∀ envelope id params fields,
      request_of envelope = Some (id, "tools/call", params) →
      string_param params "name" = Normal "echo" →
      json_param params "arguments" = Normal (Some (JObj fields)) →
      lookup_field "text" fields = Some (JStr s) →
      dispatch w envelope =
        Normal (Some (result_envelope id
          (JObj [("content", JArr [JObj [("type", JStr "text");
                                          ("text", JStr ("Echo: " +:+ s))]])]))).
Proof.
  split.
  - by apply echo_handler.
  - intros envelope id params fields Hreq Hname Hargs Htext.
    rewrite (dispatch_request _ _ _ _ _ Hreq).
    unfold route. simpl. rewrite Hname. simpl. rewrite Hargs. simpl.
    by rewrite (echo_handler _ _ _ Htext).
Qed.

Lemma C7_echo_text_witness :
  CallToolHandler sample_world "echo" (Some (JObj [("text", JStr "Hello, MCP!")])) =
    Normal (text_content "Echo: Hello, MCP!")
  ∧ dispatch sample_world
      (request_envelope (JNum 2) "tools/call"
         (JObj [("name", JStr "echo");
                ("arguments", JObj [("text", JStr "Hello, MCP!")])])) =
    Normal (Some (result_envelope (JNum 2) (text_content "Echo: Hello, MCP!"))).
Proof.
  destruct (C7_echo_text sample_world "Hello, MCP!") as [Hhandler Hdispatch].
  split.
  - exact Hhandler.
  - apply (Hdispatch _ (JNum 2)
             (Some (JObj [("name", JStr "echo");
                          ("arguments", JObj [("text", JStr "Hello, MCP!")])]))
             [("text", JStr "Hello, MCP!")]); reflexivity.
Defined.

(** *** Rounding to binary64 *)

Lemma pow2_pos e : (0 < 2 ^ e)%Q.
Proof. by apply Qpower_0_lt. Qed.

Lemma pow2_le a b : a <= b → (2 ^ a <= 2 ^ b)%Q.
Proof. intros H. apply Qpower_le_compat_l; [exact H|]. discriminate. Qed.

Lemma pow2_inject n : 0 <= n → (2 ^ n == inject_Z (2 ^ n))%Q.
Proof. intros H. by rewrite (Zpower_Qpower 2 n H). Qed.

(** [x] lies in the binade its exponent names. *)
Lemma binade_spec x : (0 < x)%Q → (2 ^ binade x <= x ∧ x < 2 ^ (binade x + 1))%Q.
Proof.
  intros Hx. destruct x as [n d]. unfold binade. cbn [Qnum Qden].
  assert (Hn : 0 < n) by (unfold Qlt in Hx; simpl in Hx; lia).
  set (a := Z.log2 n). set (b := Z.log2 (Z.pos d)).
  destruct (Z.log2_spec n Hn) as [Ha1 Ha2]. fold a in Ha1, Ha2.
  destruct (Z.log2_spec (Z.pos d) eq_refl) as [Hb1 Hb2]. fold b in Hb1, Hb2.
  assert (H0a : 0 <= a) by apply Z.log2_nonneg.
  assert (H0b : 0 <= b) by apply Z.log2_nonneg.
  assert (Hq : (n # d == inject_Z n / inject_Z (Z.pos d))%Q) by apply Qmake_Qdiv.
  assert (Hdpos : (0 < inject_Z (Z.pos d))%Q) by reflexivity.
  assert (Hna : (2 ^ a <= inject_Z n)%Q) by (rewrite pow2_inject by done; by rewrite <- Zle_Qle).
  assert (Hna' : (inject_Z n < 2 ^ (a + 1))%Q).
  { rewrite pow2_inject by lia. rewrite <- Zlt_Qlt. by rewrite <- Z.add_1_r in Ha2. }
  assert (Hdb : (2 ^ b <= inject_Z (Z.pos d))%Q) by (rewrite pow2_inject by done; by rewrite <- Zle_Qle).
  assert (Hdb' : (inject_Z (Z.pos d) < 2 ^ (b + 1))%Q).
  { rewrite pow2_inject by lia. rewrite <- Zlt_Qlt. by rewrite <- Z.add_1_r in Hb2. }
  pose proof (pow2_pos a) as Pa. pose proof (pow2_pos b) as Pb.
  assert (Hlow : (2 ^ (a - b - 1) <= n # d)%Q).
  { rewrite Hq. apply Qle_shift_div_l; [done|].
    assert (E : (2 ^ (a - b - 1) * 2 ^ (b + 1) == 2 ^ a)%Q).
    { rewrite <- Qpower_plus by discriminate. by replace (a - b - 1 + (b + 1)) with a by lia. }
    pose proof (pow2_pos (a - b - 1)) as P.
    apply Qle_trans with (2 ^ (a - b - 1) * 2 ^ (b + 1))%Q; [|lra].
    apply Qmult_le_l; [done|]. by apply Qlt_le_weak. }
  assert (Hhigh : (n # d < 2 ^ (a - b + 1))%Q).
  { rewrite Hq. apply Qlt_shift_div_r; [done|].
    assert (E : (2 ^ (a - b + 1) * 2 ^ b == 2 ^ (a + 1))%Q).
    { rewrite <- Qpower_plus by discriminate. by replace (a - b + 1 + b) with (a + 1) by lia. }
    pose proof (pow2_pos (a - b + 1)) as P.
    apply Qlt_le_trans with (2 ^ (a - b + 1) * 2 ^ b)%Q; [lra|].
    by apply Qmult_le_l. }
  destruct (Qle_bool (2 ^ (a - b)) (n # d)) eqn:E.
  - apply Qle_bool_iff in E. split; done.
  - assert (¬ (2 ^ (a - b) <= n # d)%Q) as E'.
    { intros H. apply Qle_bool_iff in H. congruence. }
    apply Qnot_le_lt in E'. split; [done|].
    by replace (a - b - 1 + 1) with (a - b) by lia.
Qed.

Lemma binade_unique x k :
  (2 ^ k <= x)%Q → (x < 2 ^ (k + 1))%Q → binade x = k.
Proof.
  intros H1 H2.
  assert (Hx : (0 < x)%Q) by (eapply Qlt_le_trans; [apply pow2_pos|exact H1]).
  destruct (binade_spec x Hx) as [B1 B2].
  destruct (Z.lt_trichotomy (binade x) k) as [Hlt|[Heq|Hgt]]; [|done|].
  - exfalso. assert (binade x + 1 <= k) as Hle by lia.
    apply pow2_le in Hle. lra.
  - exfalso. assert (k + 1 <= binade x) as Hle by lia.
    apply pow2_le in Hle. lra.
Qed.

Lemma binade_mono x y : (0 < x)%Q → (x <= y)%Q → binade x <= binade y.
Proof.
  intros Hx Hxy. assert (Hy : (0 < y)%Q) by lra.
  destruct (binade_spec x Hx) as [X1 X2]. destruct (binade_spec y Hy) as [Y1 Y2].
  destruct (Z.le_gt_cases (binade x) (binade y)) as [|Hgt]; [done|exfalso].
  assert (binade y + 1 <= binade x) as Hle by lia. apply pow2_le in Hle. lra.
Qed.

(** Rounding to an integer *)

Lemma round_half_even_comp x y : (x == y)%Q → round_half_even x = round_half_even y.
Proof.
  intros H. unfold round_half_even. rewrite (Qfloor_comp _ _ H).
  assert (E : (x - inject_Z (Qfloor y) == y - inject_Z (Qfloor y))%Q) by (rewrite H; reflexivity).
  by rewrite (Qcompare_comp _ _ E _ _ (Qeq_refl (1 # 2))).
Qed.

Lemma round_half_even_near x :
  (x - (1 # 2) <= inject_Z (round_half_even x) ∧ inject_Z (round_half_even x) <= x + (1 # 2))%Q.
Proof.
  unfold round_half_even.
  pose proof (Qfloor_le x) as Hlo. pose proof (Qlt_floor x) as Hhi.
  rewrite inject_Z_plus in Hhi. change (inject_Z 1) with 1%Q in Hhi.
  destruct (x - inject_Z (Qfloor x) ?= 1 # 2)%Q eqn:E.
  - apply Qeq_alt in E. destruct (Z.even (Qfloor x)).
    + lra.
    + rewrite inject_Z_plus. change (inject_Z 1) with 1%Q. lra.
  - apply Qlt_alt in E. lra.
  - apply Qgt_alt in E. rewrite inject_Z_plus. change (inject_Z 1) with 1%Q. lra.
Qed.

Lemma round_half_even_mono x y : (x <= y)%Q → round_half_even x <= round_half_even y.
Proof.
  intros Hxy. destruct (Qle_lt_or_eq _ _ Hxy) as [Hlt|Heq].
  - destruct (round_half_even_near x) as [_ Hx]. destruct (round_half_even_near y) as [Hy _].
    assert (H : (inject_Z (round_half_even x) < inject_Z (round_half_even y + 1))%Q).
    { rewrite inject_Z_plus. change (inject_Z 1) with 1%Q. lra. }
    rewrite <- Zlt_Qlt in H. lia.
  - by rewrite (round_half_even_comp _ _ Heq).
Qed.

Lemma round_half_even_inject n : round_half_even (inject_Z n) = n.
Proof.
  unfold round_half_even. rewrite Qfloor_Z.
  assert (E : (inject_Z n - inject_Z n ?= 1 # 2)%Q = Lt).
  { rewrite <- Qlt_alt. generalize (inject_Z n). intros q. lra. }
  by rewrite E.
Qed.

(** Rounding a positive rational *)

Lemma round_pos_nonneg x : (0 < x)%Q → (0 <= round_pos x)%Q.
Proof.
  intros Hx. unfold round_pos. pose proof (pow2_pos (ulp_exponent x)) as P.
  apply Qmult_le_0_compat; [|lra].
  change 0%Q with (inject_Z 0). rewrite <- Zle_Qle.
  rewrite <- (round_half_even_inject 0). apply round_half_even_mono.
  change (inject_Z 0) with 0%Q. apply Qle_shift_div_l; [done|]. rewrite Qmult_0_l. lra.
Qed.

Lemma round_pos_upper x :
  (0 < x)%Q → (round_pos x <= 2 ^ (Z.max (binade x) (-1022) + 1))%Q.
Proof.
  intros Hx. unfold round_pos, ulp_exponent. set (E := Z.max (binade x) (-1022)).
  pose proof (pow2_pos (E - 52)) as P.
  destruct (binade_spec x Hx) as [_ B].
  assert (HE : (x <= 2 ^ (E + 1))%Q).
  { apply Qlt_le_weak. eapply Qlt_le_trans; [exact B|]. apply pow2_le. lia. }
  assert (Hsplit : (2 ^ (E + 1) == inject_Z (2 ^ 53) * 2 ^ (E - 52))%Q).
  { rewrite <- (pow2_inject 53) by lia. rewrite <- Qpower_plus by discriminate.
    by replace (53 + (E - 52)) with (E + 1) by lia. }
  rewrite Hsplit. apply Qmult_le_compat_r; [|lra].
  rewrite <- Zle_Qle. rewrite <- (round_half_even_inject (2 ^ 53)).
  apply round_half_even_mono. apply Qle_shift_div_r; [done|]. by rewrite <- Hsplit.
Qed.

Lemma round_pos_lower x :
  (0 < x)%Q → -1022 <= binade x → (2 ^ binade x <= round_pos x)%Q.
Proof.
  intros Hx Hn. unfold round_pos, ulp_exponent. rewrite Z.max_l by lia.
  set (e := binade x). pose proof (pow2_pos (e - 52)) as P.
  destruct (binade_spec x Hx) as [B _]. fold e in B.
  assert (Hsplit : (2 ^ e == inject_Z (2 ^ 52) * 2 ^ (e - 52))%Q).
  { rewrite <- (pow2_inject 52) by lia. rewrite <- Qpower_plus by discriminate.
    by replace (52 + (e - 52)) with e by lia. }
  rewrite Hsplit at 1. apply Qmult_le_compat_r; [|lra].
  rewrite <- Zle_Qle. rewrite <- (round_half_even_inject (2 ^ 52)) at 1.
  apply round_half_even_mono. apply Qle_shift_div_l; [done|]. by rewrite <- Hsplit.
Qed.

Lemma round_pos_mono x y : (0 < x)%Q → (x <= y)%Q → (round_pos x <= round_pos y)%Q.
Proof.
  intros Hx Hxy. assert (Hy : (0 < y)%Q) by lra.
  pose proof (binade_mono x y Hx Hxy) as Hb.
  destruct (Z.eq_dec (ulp_exponent x) (ulp_exponent y)) as [Heq|Hne].
  - unfold round_pos. rewrite Heq. pose proof (pow2_pos (ulp_exponent y)) as P.
    apply Qmult_le_compat_r; [|lra]. rewrite <- Zle_Qle. apply round_half_even_mono.
    apply Qle_shift_div_l; [done|].
    assert (E : (x / 2 ^ ulp_exponent y * 2 ^ ulp_exponent y == x)%Q).
    { field. apply Qnot_eq_sym, Qlt_not_eq, P. }
    by rewrite E.
  - unfold ulp_exponent in Hne.
    assert (Hy2 : -1022 <= binade y) by lia.
    apply Qle_trans with (2 ^ (Z.max (binade x) (-1022) + 1))%Q; [by apply round_pos_upper|].
    apply Qle_trans with (2 ^ binade y)%Q; [|by apply round_pos_lower].
    apply pow2_le. lia.
Qed.

(** Rounding is monotone *)

Lemma round64_signed x : (round64 x == round_signed (Qred x))%Q.
Proof. unfold round64. apply Qred_correct. Qed.

Lemma round_pos_comp_opp x y : (x <= y)%Q → (y < 0)%Q → (- round_pos (- x) <= - round_pos (- y))%Q.
Proof.
  intros Hxy Hy. apply Qopp_le_compat. apply round_pos_mono; lra.
Qed.

Lemma Qcompare_cases x y :
  match (x ?= y)%Q with
  | Eq => (x == y)%Q
  | Lt => (x < y)%Q
  | Gt => (y < x)%Q
  end.
Proof.
  destruct (x ?= y)%Q eqn:E.
  - exact (proj2 (Qeq_alt _ _) E).
  - exact (proj2 (Qlt_alt _ _) E).
  - exact (proj2 (Qgt_alt _ _) E).
Qed.

Lemma round_signed_mono x y : (x <= y)%Q → (round_signed x <= round_signed y)%Q.
Proof.
  intros Hxy. unfold round_signed.
  pose proof (Qcompare_cases x 0) as Ex. pose proof (Qcompare_cases y 0) as Ey.
  destruct (x ?= 0)%Q; destruct (y ?= 0)%Q; try lra.
  - by apply round_pos_nonneg.
  - assert (0 <= round_pos (- x))%Q by (apply round_pos_nonneg; lra). lra.
  - by apply round_pos_comp_opp.
  - assert (0 <= round_pos (- x))%Q by (apply round_pos_nonneg; lra).
    assert (0 <= round_pos y)%Q by (by apply round_pos_nonneg). lra.
  - by apply round_pos_mono.
Qed.

(** Rounding to binary64 is monotone. *)
Lemma round64_mono x y : (x <= y)%Q → (round64 x <= round64 y)%Q.
Proof.
  intros H. rewrite !round64_signed. apply round_signed_mono. by rewrite !Qred_correct.
Qed.

Lemma round64_comp x y : (x == y)%Q → round64 x = round64 y.
Proof. intros H. unfold round64. by rewrite (Qred_complete _ _ H). Qed.

(** The largest binary64 below 1 is [1 - 2^-53]. *)
Lemma double_below_one u :
  is_double u → (0 <= u)%Q → (u < 1)%Q → (u <= 1 - (1 # 2 ^ 53))%Q.
Proof.
  intros Hd H0 H1. destruct (Qlt_le_dec u (1 # 2)) as [Hsmall|Hbig].
  { eapply Qle_trans; [apply Qlt_le_weak, Hsmall|]. by vm_compute. }
  unfold is_double in Hd. rewrite round64_signed in Hd.
  set (v := Qred u) in *. assert (Hv : (v == u)%Q) by apply Qred_correct.
  unfold round_signed in Hd.
  assert (E : (v ?= 0)%Q = Gt) by (rewrite <- Qgt_alt; lra). rewrite E in Hd.
  unfold round_pos, ulp_exponent in Hd.
  assert (Hb : binade v = -1).
  { apply binade_unique.
    - change (2 ^ (-1))%Q with (1 # 2)%Q. lra.
    - change (2 ^ (-1 + 1))%Q with 1%Q. lra. }
  rewrite Hb in Hd. change (Z.max (-1) (-1022) - 52) with (-53) in Hd.
  set (m := round_half_even (v / 2 ^ (-53))) in *.
  assert (P : (2 ^ (-53) == 1 # 2 ^ 53)%Q) by reflexivity.
  rewrite P in Hd.
  assert (Hm : (inject_Z m < inject_Z (2 ^ 53))%Q).
  { change (inject_Z (2 ^ 53)) with (9007199254740992 # 1)%Q.
    change (1 # 2 ^ 53)%Q with (1 # 9007199254740992)%Q in Hd. lra. }
  rewrite <- Zlt_Qlt in Hm.
  assert (Hm' : (inject_Z m <= inject_Z (2 ^ 53 - 1))%Q) by (rewrite <- Zle_Qle; lia).
  change (inject_Z (2 ^ 53 - 1)) with (9007199254740991 # 1)%Q in Hm'.
  change (1 # 2 ^ 53)%Q with (1 # 9007199254740992)%Q in Hd |- *. lra.
Qed.

Lemma Qred_inject_Z k : Qred (inject_Z k) = inject_Z k.
Proof.
  unfold Qred, inject_Z.
  generalize (Z.ggcd_gcd k 1) (Z.ggcd_correct_divisors k 1).
  destruct (Z.ggcd k 1) as (g, (a, b)). simpl. intros Hg [Ha Hb].
  rewrite Z.gcd_1_r in Hg. subst g. rewrite Z.mul_1_l in Ha, Hb. by subst.
Qed.

(** Rounding a normal number moves it up by at most one part in [2^53]. *)
Lemma round_pos_relative x :
  (1 # 2 <= x)%Q → (round_pos x <= x * (1 + 2 ^ (-53)))%Q.
Proof.
  intros Hx. assert (H0 : (0 < x)%Q) by lra.
  destruct (binade_spec x H0) as [B1 B2].
  assert (He : -1 <= binade x).
  { destruct (Z.le_gt_cases (-1) (binade x)) as [|Hlt]; [done|exfalso].
    assert (binade x + 1 <= -1) as Hle by lia. apply pow2_le in Hle.
    change (2 ^ (-1))%Q with (1 # 2)%Q in Hle. lra. }
  unfold round_pos, ulp_exponent. rewrite Z.max_l by lia.
  set (e := binade x) in *. pose proof (pow2_pos (e - 52)) as P.
  destruct (round_half_even_near (x / 2 ^ (e - 52))) as [_ Hnear].
  assert (Hsplit : (2 ^ e * 2 ^ (-53) == 2 ^ (e - 52) * (1 # 2))%Q).
  { change (1 # 2)%Q with (2 ^ (-1))%Q. rewrite <- !Qpower_plus by discriminate.
    by replace (e - 52 + -1) with (e + -53) by lia. }
  assert (Hx' : (x / 2 ^ (e - 52) * 2 ^ (e - 52) == x)%Q).
  { field. apply Qnot_eq_sym, Qlt_not_eq, P. }
  apply Qle_trans with ((x / 2 ^ (e - 52) + (1 # 2)) * 2 ^ (e - 52))%Q.
  { apply Qmult_le_compat_r; [exact Hnear|lra]. }
  rewrite Qmult_plus_distr_l, Hx'.
  assert (Hq : (0 < 2 ^ (-53))%Q) by apply pow2_pos.
  assert (Hm : (2 ^ e * 2 ^ (-53) <= x * 2 ^ (-53))%Q) by (apply Qmult_le_compat_r; lra).
  rewrite Qmult_plus_distr_r, Qmult_1_r. lra.
Qed.

(** An integer up to [2^53] in magnitude is a binary64. *)
Lemma round_pos_integer k :
  1 <= k <= 2 ^ 53 → (round_pos (inject_Z k) == inject_Z k)%Q.
Proof.
  intros Hk.
  assert (H0 : (0 < inject_Z k)%Q) by (change 0%Q with (inject_Z 0); rewrite <- Zlt_Qlt; lia).
  destruct (binade_spec _ H0) as [B1 B2]. set (e := binade (inject_Z k)) in *.
  assert (He0 : 0 <= e).
  { destruct (Z.le_gt_cases 0 e) as [|Hlt]; [done|exfalso].
    assert (e + 1 <= 0) as Hle by lia. apply pow2_le in Hle.
    change (2 ^ 0)%Q with (inject_Z 1) in Hle.
    assert (inject_Z 1 <= inject_Z k)%Q by (rewrite <- Zle_Qle; lia). lra. }
  assert (He1 : e <= 53).
  { apply Qpower_le_compat_l_inv with (q := 2%Q); [|reflexivity].
    eapply Qle_trans; [exact B1|]. rewrite (pow2_inject 53) by lia.
    rewrite <- Zle_Qle. lia. }
  unfold round_pos, ulp_exponent. fold e. rewrite Z.max_l by lia.
  pose proof (pow2_pos (e - 52)) as P.
  destruct (Z.eq_dec e 53) as [->|Hne].
  - assert (k = 2 ^ 53) as ->.
    { rewrite (pow2_inject 53) in B1 by lia. rewrite <- Zle_Qle in B1. lia. }
    vm_compute. reflexivity.
  - assert (Hscale : (inject_Z k / 2 ^ (e - 52) == inject_Z (k * 2 ^ (52 - e)))%Q).
    { rewrite inject_Z_mult, <- (pow2_inject (52 - e)) by lia.
      replace (52 - e) with (- (e - 52)) by lia. rewrite Qpower_opp. reflexivity. }
    rewrite (round_half_even_comp _ _ Hscale), round_half_even_inject, <- Hscale.
    field. apply Qnot_eq_sym, Qlt_not_eq, P.
Qed.

Lemma round64_integer k : - 2 ^ 53 <= k <= 2 ^ 53 → round64 (inject_Z k) = inject_Z k.
Proof.
  intros Hk. transitivity (Qred (inject_Z k)); [|apply Qred_inject_Z].
  unfold round64. apply Qred_complete. rewrite Qred_inject_Z. unfold round_signed.
  pose proof (Qcompare_cases (inject_Z k) 0) as Hc.
  destruct (inject_Z k ?= 0)%Q.
  - by symmetry.
  - change 0%Q with (inject_Z 0) in Hc. rewrite <- Zlt_Qlt in Hc.
    change (- inject_Z k)%Q with (inject_Z (- k)).
    rewrite round_pos_integer by lia. unfold Qeq. simpl. lia.
  - change 0%Q with (inject_Z 0) in Hc. rewrite <- Zlt_Qlt in Hc.
    apply round_pos_integer. lia.
Qed.

(** The rounded product of a draw and a positive integer stays below the
    integer. *)
Lemma draw_times_width u n :
  is_double u → (0 <= u)%Q → (u < 1)%Q → 1 <= n →
  (0 <= Number_mul u (inject_Z n) ∧ Number_mul u (inject_Z n) < inject_Z n)%Q.
Proof.
  intros Hd H0 H1 Hn. pose proof (double_below_one u Hd H0 H1) as Hgap.
  assert (HN : (1 <= inject_Z n)%Q).
  { change 1%Q with (inject_Z 1). rewrite <- Zle_Qle. lia. }
  unfold Number_mul. set (N := inject_Z n) in *. split.
  - assert (E0 : round64 0 = 0%Q) by (vm_compute; reflexivity).
    rewrite <- E0. apply round64_mono. apply Qmult_le_0_compat; lra.
  - set (c := ((1 - (1 # 2 ^ 53)) * N)%Q).
    assert (Hc : (u * N <= c)%Q) by (apply Qmult_le_compat_r; lra).
    apply Qle_lt_trans with (round64 c); [by apply round64_mono|].
    rewrite round64_signed. set (x := Qred c).
    assert (Hx : (x == c)%Q) by apply Qred_correct.
    assert (Hhalf : (1 # 2 <= c)%Q).
    { subst c. apply Qle_trans with ((1 - (1 # 2 ^ 53)) * 1)%Q; [by vm_compute|].
      apply Qmult_le_l; [reflexivity|exact HN]. }
    unfold round_signed.
    pose proof (Qcompare_cases x 0) as Hs. destruct (x ?= 0)%Q; [lra|lra|].
    eapply Qle_lt_trans; [apply round_pos_relative; lra|].
    rewrite Hx. subst c.
    assert (P : (2 ^ (-53) == 1 # 2 ^ 53)%Q) by reflexivity. rewrite P.
    assert (E : ((1 - (1 # 2 ^ 53)) * N * (1 + (1 # 2 ^ 53)) ==
                 N * ((1 - (1 # 2 ^ 53)) * (1 + (1 # 2 ^ 53))))%Q) by ring.
    rewrite E. rewrite <- (Qmult_1_r N) at 2.
    apply Qmult_lt_l; [lra|]. reflexivity.
Qed.

(** The rounded product of a draw and a negative integer stays above the
    integer. *)
Lemma draw_times_negative u n :
  is_double u → (0 <= u)%Q → (u < 1)%Q → n <= -1 →
  (inject_Z n < Number_mul u (inject_Z n) ∧ Number_mul u (inject_Z n) <= 0)%Q.
Proof.
  intros Hd H0 H1 Hn. pose proof (double_below_one u Hd H0 H1) as Hgap.
  assert (HN : (inject_Z n <= -1)%Q).
  { change (-1)%Q with (inject_Z (-1)). rewrite <- Zle_Qle. lia. }
  unfold Number_mul. set (N := inject_Z n) in *.
  assert (E0 : round64 0 = 0%Q) by (vm_compute; reflexivity).
  split.
  - set (c := ((1 - (1 # 2 ^ 53)) * N)%Q).
    assert (Hc : (c <= u * N)%Q).
    { assert (H : (u * - N <= (1 - (1 # 2 ^ 53)) * - N)%Q) by (apply Qmult_le_compat_r; lra).
      subst c. lra. }
    apply Qlt_le_trans with (round64 c); [|by apply round64_mono].
    rewrite round64_signed. set (x := Qred c).
    assert (Hx : (x == c)%Q) by apply Qred_correct.
    assert (Hhalf : (1 # 2 <= - c)%Q).
    { subst c. apply Qle_trans with ((1 - (1 # 2 ^ 53)) * 1)%Q; [by vm_compute|].
      assert (H : ((1 - (1 # 2 ^ 53)) * 1 <= (1 - (1 # 2 ^ 53)) * - N)%Q).
      { apply Qmult_le_l; [reflexivity|lra]. }
      lra. }
    unfold round_signed.
    pose proof (Qcompare_cases x 0) as Hs. destruct (x ?= 0)%Q; [lra| |lra].
    assert (Hr : (round_pos (- x) <= - x * (1 + 2 ^ (-53)))%Q).
    { apply round_pos_relative. lra. }
    assert (P : (2 ^ (-53) == 1 # 2 ^ 53)%Q) by reflexivity. rewrite P in Hr.
    assert (E : (- x * (1 + (1 # 2 ^ 53)) ==
                 - N * ((1 - (1 # 2 ^ 53)) * (1 + (1 # 2 ^ 53))))%Q).
    { rewrite Hx. subst c. ring. }
    assert (Hlt : (- N * ((1 - (1 # 2 ^ 53)) * (1 + (1 # 2 ^ 53))) < - N * 1)%Q).
    { apply Qmult_lt_l; [lra|reflexivity]. }
    lra.
  - rewrite <- E0. apply round64_mono.
    assert (H : (0 <= u * - N)%Q) by (apply Qmult_le_0_compat; lra). lra.
Qed.

(** The model against outputs of the language: the decimal [0.7] is read
    as the binary64 below it, whose product with 10 rounds to 7; the sum of
    [0.1] and [0.2] is not [0.3]; digits are the shortest that read back,
    with an exponent from [1e21] on and below [1e-6]. *)
Example product_rounds_up :
  Number_mul (round64 (7 # 10)) 10 = 7%Q ∧ Qfloor (round64 (7 # 10) * 10) = 6.
Proof. vm_compute. done. Qed.

Example random_number_rounds_up :
  randomNum {| Math_random := round64 (7 # 10); Date_toISOString := EmptyString |} 1 10 = 8%Q.
Proof. vm_compute. reflexivity. Qed.

Example random_number_fraction :
  CallToolHandler {| Math_random := 1 # 2; Date_toISOString := EmptyString |} "random_number"
    (Some (JObj [("min", JNum (round64 (14 # 100))); ("max", JNum 2)])) =
    Normal (text_content "Random number between 0.14 and 2: 1.1400000000000001").
Proof. vm_compute. reflexivity. Qed.

Example number_texts :
  map Number_toString
    [round64 (1 # 10); Number_add (round64 (1 # 10)) (round64 (2 # 10)); 100%Q;
     (-32603)%Q; 3 # 2; round64 (1 # 3); inject_Z (10 ^ 21); inject_Z (10 ^ 20);
     round64 (1 # 10 ^ 7); round64 (1 # 10 ^ 6); inject_Z (2 ^ 60)] =
    ["0.1"; "0.30000000000000004"; "100"; "-32603"; "1.5"; "0.3333333333333333";
     "1e+21"; "100000000000000000000"; "1e-7"; "0.000001"; "1152921504606847000"].
Proof. vm_compute. reflexivity. Qed.

Example parse_rounds :
  JSON_parse "[0.1, 9007199254740993, 1e-400]" =
    Normal (JArr [JNum (round64 (1 # 10)); JNum (inject_Z (2 ^ 53)); JNum 0]).
Proof. vm_compute. reflexivity. Qed.

(** *** [random_number] *)

Lemma random_number_handler w min max :
  CallToolHandler w "random_number" (Some (JObj [("min", JNum min); ("max", JNum max)])) =
    Normal (text_content
      ("Random number between " +:+ Number_toString min +:+ " and " +:+
       Number_toString max +:+ ": " +:+ Number_toString (randomNum w min max))).
Proof. reflexivity. Qed.





(** ** The HTTP transport *)

Lemma fetch_post_mcp stub request :
  method request = "POST" → pathname (url request) = "/mcp" →
  Http.fetch stub request =
    match resolve stub request with
    | Normal response =>
        if truthy response then Never else Settles (event_stream [], [])
    | Throw error =>
        Settles (error_response error, [console_error "Error handling MCP request:" error])
    end.
Proof.
  intros Hm Hp. unfold Http.fetch, Http.post_mcp, resolve. rewrite Hm, Hp. simpl.
  destruct (JSON_parse (body request)) as [msg|e]; simpl; [|reflexivity].
  destruct (Http.handleMCPRequest stub msg) as [[r|]|e]; try reflexivity.
  cbn [mbind completion_bind]. destruct (truthy (Some r)); reflexivity.
Qed.

(** C5, at the input where the code departs from it: when the dispatcher
    hands back a response to send (a truthy value), [fetch] awaits the
    write of the frame on a stream that nothing reads yet, so the promise
    it returns never settles: there is no 200 response, no frame and no
    closed stream. *)
Theorem C5_frame_never_delivered (stub : Http.MCPServerObject) (request : Request)
  (response : option json) :
  method request = "POST" → pathname (url request) = "/mcp" →
  resolve stub request = Normal response →
  truthy response = true →
  Http.fetch stub request = Never.
Proof.
  intros Hm Hp Hres Htruthy. by rewrite (fetch_post_mcp _ _ Hm Hp), Hres, Htruthy.
Qed.

Lemma C5_frame_never_delivered_witness :
  let stub := {| Http.server := createMCPServer sample_world |} in
  let request := POST_mcp (JSON_stringify list_tools_call) in
  (method request = "POST" ∧ pathname (url request) = "/mcp" ∧
   resolve stub request = Normal (Some (result_envelope (JNum 1) ListToolsHandler)) ∧
   truthy (Some (result_envelope (JNum 1) ListToolsHandler)) = true)
  ∧ Http.fetch stub request = Never.
Proof.
  split; [repeat split|].
  exact (C5_frame_never_delivered {| Http.server := createMCPServer sample_world |}
           (POST_mcp (JSON_stringify list_tools_call))
           (Some (result_envelope (JNum 1) ListToolsHandler))
           eq_refl eq_refl eq_refl eq_refl).
Defined.

(** ** The socket transport *)

Lemma webSocketMessage_text this ws s :
  Ws.webSocketMessage this ws (Ws.Text s) =
    match JSON_parse s with
    | Normal msg =>
        match handleRequest (Ws.server this) msg with
        | Normal response =>
            match response with
            | Some r => if truthy response then [Ws.ws_send ws (JSON_stringify r)] else []
            | None => []
            end
        | Throw error =>
            Ws.log (console_error "Error handling WebSocket message:" error) ::
            match get_property msg "id" with
            | Normal id =>
                [Ws.ws_send ws (JSON_stringify (error_envelope (or_null id) error))]
            | Throw _ => [Ws.ws_close ws 1011 "Internal error"]
            end
        end
    | Throw error =>
        [Ws.log (console_error "Error handling WebSocket message:" error);
         Ws.ws_close ws 1011 "Internal error"]
    end.
Proof.
  unfold Ws.webSocketMessage, Ws.handle_message, Ws.reply_error. simpl.
  destruct (JSON_parse s) as [msg|e]; simpl; [|reflexivity].
  destruct (handleRequest (Ws.server this) msg) as [[r|]|e]; simpl; try reflexivity.
  - match goal with |- context [if ?b then _ else _] => destruct b end; reflexivity.
  - destruct (get_property msg "id"); reflexivity.
Qed.

Lemma get_property_not_null v k : v ≠ JNull → ∃ x, get_property v k = Normal x.
Proof. destruct v; simpl; eauto. congruence. Qed.

(** C2: when the dispatcher keeps its contract of returning nothing to send
    (a falsy value) for a notification, a notification makes neither
    transport send a response envelope: [POST /mcp] answers with a closed
    stream holding no frame, and [webSocketMessage] performs no action on
    the socket. *)
Theorem C2_notification_no_response (srv : Server) (text : string) (envelope : json) :
  (∀ e, is_notification e = true →
        ∃ r, handleRequest srv e = Normal r ∧ truthy r = false) →
  JSON_parse text = Normal envelope →
  is_notification envelope = true →
  (∀ request, method request = "POST" → pathname (url request) = "/mcp" →
     body request = text →
     Http.fetch {| Http.server := srv |} request = Settles (event_stream [], []))
  ∧ (∀ open ws,
       Ws.webSocketMessage {| Ws.server := srv; Ws.sessions := open |} ws (Ws.Text text) = []).
Proof.
  intros Hcontract Hparse Hnote.
  destruct (Hcontract _ Hnote) as (r & Hr & Hfalsy). split.
  - intros request Hm Hp Hb. rewrite (fetch_post_mcp _ _ Hm Hp).
    unfold resolve, Http.handleMCPRequest. rewrite Hb, Hparse. simpl. rewrite Hr.
    by rewrite Hfalsy.
  - intros open ws. rewrite webSocketMessage_text, Hparse. simpl. rewrite Hr.
    destruct r as [v|]; [|reflexivity]. simpl in Hfalsy |- *. by rewrite Hfalsy.
Qed.

Lemma createMCPServer_contract w e :
  is_notification e = true →
  ∃ r, handleRequest (createMCPServer w) e = Normal r ∧ truthy r = false.
Proof. intros H. exists (Some JNull). split; [by apply dispatch_notification|reflexivity]. Qed.

Lemma C2_notification_no_response_witness :
  (JSON_parse (JSON_stringify initialized_notification) = Normal initialized_notification ∧
   is_notification initialized_notification = true)
  ∧ Http.fetch {| Http.server := createMCPServer sample_world |}
      (POST_mcp (JSON_stringify initialized_notification)) = Settles (event_stream [], [])
  ∧ Ws.webSocketMessage (Ws.new_MCPServerObject sample_world) 1%positive
      (Ws.Text (JSON_stringify initialized_notification)) = [].
Proof.
  split; [split; reflexivity|].
  destruct (C2_notification_no_response (createMCPServer sample_world)
              (JSON_stringify initialized_notification) initialized_notification
              (createMCPServer_contract sample_world) eq_refl eq_refl) as [Hhttp Hws].
  split.
  - exact (Hhttp (POST_mcp (JSON_stringify initialized_notification)) eq_refl eq_refl eq_refl).
  - exact (Hws ∅ 1%positive).
Defined.

Lemma webSocketMessage_binary this ws bytes :
  Ws.webSocketMessage this ws (Ws.Binary bytes) =
    [Ws.log (console_error "Error handling WebSocket message:"
               (Error "Expected string message"));
     Ws.ws_close ws 1011 "Internal error"].
Proof. reflexivity. Qed.

(** C9: a binary frame never gets an error envelope: the fault of the type
    test is caught, the fallback parse is given the text an [ArrayBuffer]
    converts to, which is no JSON, and the connection is closed with code
    1011 and reason [Internal error]. *)
Theorem C9_binary_frame_closes (this : Ws.MCPServerObject) (ws : WebSocket)
  (bytes : list ascii) :
  JSON_parse (Ws.ToString (Ws.Binary bytes)) = Throw SyntaxError
  ∧ Ws.webSocketMessage this ws (Ws.Binary bytes) =
      [Ws.log (console_error "Error handling WebSocket message:"
                 (Error "Expected string message"));
       Ws.ws_close ws 1011 "Internal error"]
  ∧ sent_to ws (Ws.webSocketMessage this ws (Ws.Binary bytes)) = [].
Proof. split; [reflexivity|]. by rewrite webSocketMessage_binary. Qed.

Ltac absurd_member H :=
  repeat (apply elem_of_cons in H as [H|H]; [discriminate H|]);
  by apply elem_of_nil in H.

(** C10 as amended: a text frame that parses as JSON to a value other than
    [null] never makes [webSocketMessage] close the connection, and a fault
    raised while handling it sends one error envelope, carrying the fault's
    message as data and the request's id when it is truthy; over all text
    frames that parse, the connection is closed exactly when the frame
    parses to [null] and handling it faults. *)
Theorem C10_json_frame_keeps_connection (this : Ws.MCPServerObject) (ws : WebSocket)
  (s : string) (v : json) :
  JSON_parse s = Normal v →
  (v ≠ JNull → ¬ closes (Ws.webSocketMessage this ws (Ws.Text s)))
  ∧ (v ≠ JNull → ∀ error, handleRequest (Ws.server this) v = Throw error →
       ∃ id, get_property v "id" = Normal id ∧
         Ws.webSocketMessage this ws (Ws.Text s) =
           [Ws.log (console_error "Error handling WebSocket message:" error);
            Ws.ws_send ws (JSON_stringify (error_envelope (or_null id) error))])
  ∧ (closes (Ws.webSocketMessage this ws (Ws.Text s)) ↔
       v = JNull ∧ ∃ error, handleRequest (Ws.server this) v = Throw error).
Proof.
  intros Hparse.
  assert (Hfault : v ≠ JNull → ∀ error, handleRequest (Ws.server this) v = Throw error →
       ∃ id, get_property v "id" = Normal id ∧
         Ws.webSocketMessage this ws (Ws.Text s) =
           [Ws.log (console_error "Error handling WebSocket message:" error);
            Ws.ws_send ws (JSON_stringify (error_envelope (or_null id) error))]).
  { intros Hv error He. destruct (get_property_not_null v "id" Hv) as [id Hid].
    exists id. split; [exact Hid|].
    by rewrite webSocketMessage_text, Hparse, He, Hid. }
  assert (Hiff : closes (Ws.webSocketMessage this ws (Ws.Text s)) ↔
       v = JNull ∧ ∃ error, handleRequest (Ws.server this) v = Throw error).
  { rewrite webSocketMessage_text, Hparse. unfold closes. split.
    - intros (ws' & code & reason & Hin).
      destruct (handleRequest (Ws.server this) v) as [[r|]|e] eqn:He.
      + destruct (truthy (Some r)); absurd_member Hin.
      + absurd_member Hin.
      + destruct v; simpl in Hin; try absurd_member Hin. eauto.
    - intros [-> [e ->]]. exists ws, 1011, "Internal error". simpl.
      apply elem_of_cons. right. apply elem_of_cons. by left. }
  split; [|split; [exact Hfault|exact Hiff]].
  intros Hv Hc. apply Hiff in Hc as [? _]. contradiction.
Qed.

Lemma C10_json_frame_keeps_connection_witness :
  (JSON_parse (JSON_stringify zero_id_call) = Normal zero_id_call ∧ zero_id_call ≠ JNull)
  ∧ ¬ closes (Ws.webSocketMessage (Ws.new_MCPServerObject sample_world) 1%positive
                (Ws.Text (JSON_stringify zero_id_call))).
Proof.
  split; [split; [reflexivity|discriminate]|].
  exact (proj1 (C10_json_frame_keeps_connection (Ws.new_MCPServerObject sample_world)
                  1%positive (JSON_stringify zero_id_call) zero_id_call eq_refl)
               ltac:(discriminate)).
Defined.

(** C10, the claim as stated fails: the text frame [null] parses as JSON,
    handling it faults (the dispatcher reads the method of [null]), the
    fallback parse succeeds, reading [parsedMessage.id] of [null] throws, and
    the connection is closed with 1011 without any envelope being sent. *)
Lemma C10_null_frame_closes :
  JSON_parse "null" = Normal JNull
  ∧ handleRequest (Ws.server (Ws.new_MCPServerObject sample_world)) JNull =
      Throw (Error "Cannot read properties of null (reading 'method')")
  ∧ Ws.webSocketMessage (Ws.new_MCPServerObject sample_world) 1%positive (Ws.Text "null") =
      [Ws.log (console_error "Error handling WebSocket message:"
                 (Error "Cannot read properties of null (reading 'method')"));
       Ws.ws_close 1%positive 1011 "Internal error"].
Proof. repeat split. Qed.

(** C4, the code at the failing input: a [tools/call] for an unknown tool
    sent with id 0 over the socket.  The fallback parse recovers the id 0,
    and [parsedMessage.id || null] turns it into [null] in the envelope. *)
Theorem C4_zero_id_replaced_by_null (w : world) (ws : WebSocket) :
  (parsedMessage ← JSON_parse (JSON_stringify zero_id_call);
   get_property parsedMessage "id") = Normal (Some (JNum 0))
  ∧ Ws.webSocketMessage (Ws.new_MCPServerObject w) ws
      (Ws.Text (JSON_stringify zero_id_call)) =
      [Ws.log (console_error "Error handling WebSocket message:"
                 (Error "Unknown tool: nope"));
       Ws.ws_send ws (JSON_stringify
         (JObj [("jsonrpc", JStr "2.0");
                ("id", JNull);
                ("error", JObj [("code", JNum (-32603));
                                ("message", JStr "Internal error");
                                ("data", JStr "Unknown tool: nope")])]))].
Proof. split; reflexivity. Qed.

(** ** Unknown capabilities *)

Lemma eqb_of_not_in (name x : string) (l : list string) :
  name ∉ l → x ∈ l → String.eqb name x = false.
Proof. intros Hn Hx. apply String.eqb_neq. intros ->. contradiction. Qed.

Ltac registered_name :=
  repeat first [apply list_elem_of_here | apply list_elem_of_further].

Lemma CallToolHandler_unknown w name args :
  name ∉ registry Tool →
  CallToolHandler w name args = Throw (Error ("Unknown tool: " +:+ name)).
Proof.
  intros Hn. unfold CallToolHandler.
  rewrite !(eqb_of_not_in name _ _ Hn) by registered_name. reflexivity.
Qed.

Lemma ReadResourceHandler_unknown w uri :
  uri ∉ registry Resource →
  ReadResourceHandler w uri = Throw (Error ("Unknown resource: " +:+ uri)).
Proof.
  intros Hn. unfold ReadResourceHandler.
  rewrite !(eqb_of_not_in uri _ _ Hn) by registered_name. reflexivity.
Qed.

Lemma GetPromptHandler_unknown name args :
  name ∉ registry Prompt →
  GetPromptHandler name args = Throw (Error ("Unknown prompt: " +:+ name)).
Proof.
  intros Hn. unfold GetPromptHandler.
  rewrite !(eqb_of_not_in name _ _ Hn) by registered_name. reflexivity.
Qed.

Lemma route_unknown w c params name :
  string_param params (name_key c) = Normal name →
  name ∉ registry c →
  route w (Some (JStr (call_method c))) params = Throw (Error (unknown_label c +:+ name)).
Proof.
  intros Hname Hn.
  destruct (string_param_object _ _ _ Hname) as (fields & -> & Hfield).
  destruct c; simpl in *; rewrite Hfield; simpl.
  - by apply CallToolHandler_unknown.
  - by apply ReadResourceHandler_unknown.
  - by apply GetPromptHandler_unknown.
Qed.

Lemma dispatch_unknown w c envelope id params name :
  request_of envelope = Some (id, call_method c, params) →
  string_param params (name_key c) = Normal name →
  name ∉ registry c →
  dispatch w envelope = Throw (Error (unknown_label c +:+ name)).
Proof.
  intros Hreq Hname Hn.
  by rewrite (dispatch_request _ _ _ _ _ Hreq), (route_unknown _ _ _ _ Hname Hn).
Qed.

Lemma request_of_id envelope id m params :
  request_of envelope = Some (id, m, params) → get_property envelope "id" = Normal (Some id).
Proof.
  destruct envelope as [| | | | |fields]; simpl; try discriminate.
  destruct (lookup_field "id" fields) as [i|]; [|discriminate].
  destruct (lookup_field "method" fields) as [[| | |s| |]|]; try discriminate.
  destruct (is_null i); [discriminate|]. by intros [= -> _ _].
Qed.

(** C1 as amended: a [tools/call], [resources/read] or [prompts/get]
    request naming a tool, resource or prompt that is not in the registry is
    answered with an error envelope of code -32603 whose message is the
    fixed text [Internal error] and whose data is [Unknown tool: ],
    [Unknown resource: ] or [Unknown prompt: ] followed by the name.  Over
    HTTP the envelope is the body of a 500 response and its id is [null];
    over the socket it is sent as one frame and its id is the request's id
    when that is truthy. *)
Theorem C1_unknown_capability_error (w : world) (c : capability) (text : string)
  (envelope id : json) (params : option json) (name : string) :
  JSON_parse text = Normal envelope →
  request_of envelope = Some (id, call_method c, params) →
  string_param params (name_key c) = Normal name →
  name ∉ registry c →
  let answer i :=
    JObj [("jsonrpc", JStr "2.0");
          ("id", i);
          ("error", JObj [("code", JNum (-32603));
                          ("message", JStr "Internal error");
                          ("data", JStr (unknown_label c +:+ name))])] in
  (∀ request, method request = "POST" → pathname (url request) = "/mcp" →
     body request = text →
     Http.fetch {| Http.server := createMCPServer w |} request =
       Settles
         ({| status := 500;
             response_headers := [("Content-Type", "application/json");
                                  ("Access-Control-Allow-Origin", "*")];
             response_body := BodyText (JSON_stringify (answer JNull));
             webSocket := None |},
          [console_error "Error handling MCP request:" (Error (unknown_label c +:+ name))]))
  ∧ (∀ open ws,
       Ws.webSocketMessage {| Ws.server := createMCPServer w; Ws.sessions := open |} ws
         (Ws.Text text) =
         [Ws.log (console_error "Error handling WebSocket message:"
                    (Error (unknown_label c +:+ name)));
          Ws.ws_send ws (JSON_stringify (answer (or_null (Some id))))]).
Proof.
  intros Hparse Hreq Hname Hn answer.
  pose proof (dispatch_unknown w _ _ _ _ _ Hreq Hname Hn) as Hfault.
  split.
  - intros request Hm Hp Hb. rewrite (fetch_post_mcp _ _ Hm Hp).
    unfold resolve, Http.handleMCPRequest. rewrite Hb, Hparse. simpl.
    by rewrite Hfault.
  - intros open ws. rewrite webSocketMessage_text, Hparse. simpl.
    by rewrite Hfault, (request_of_id _ _ _ _ Hreq).
Qed.

Lemma nope_not_registered : "nope" ∉ registry Tool.
Proof. intros H. absurd_member H. Qed.

Lemma C1_unknown_capability_error_witness :
  (JSON_parse (JSON_stringify nope_call) = Normal nope_call ∧
   request_of nope_call =
     Some (JNum 1, "tools/call",
           Some (JObj [("name", JStr "nope"); ("arguments", JObj [])])))
  ∧ Http.fetch {| Http.server := createMCPServer sample_world |}
      (POST_mcp (JSON_stringify nope_call)) =
      Settles
        ({| status := 500;
            response_headers := [("Content-Type", "application/json");
                                 ("Access-Control-Allow-Origin", "*")];
            response_body := BodyText (JSON_stringify (nope_answer JNull));
            webSocket := None |},
         [console_error "Error handling MCP request:" (Error "Unknown tool: nope")])
  ∧ Ws.webSocketMessage (Ws.new_MCPServerObject sample_world) 1%positive
      (Ws.Text (JSON_stringify nope_call)) =
      [Ws.log (console_error "Error handling WebSocket message:"
                 (Error "Unknown tool: nope"));
       Ws.ws_send 1%positive (JSON_stringify (nope_answer (JNum 1)))].
Proof.
  split; [split; reflexivity|].
  destruct (C1_unknown_capability_error sample_world Tool (JSON_stringify nope_call)
              nope_call (JNum 1)
              (Some (JObj [("name", JStr "nope"); ("arguments", JObj [])])) "nope"
              eq_refl eq_refl eq_refl nope_not_registered) as [Hhttp Hws].
  split.
  - exact (Hhttp (POST_mcp (JSON_stringify nope_call)) eq_refl eq_refl eq_refl).
  - exact (Hws ∅ 1%positive).
Defined.

(** C1, the claim as stated fails: for [tools/call] with the name [nope] the
    message of the error envelope is [Internal error], which does not
    contain [Unknown tool: nope]; that text is the envelope's data. *)
Lemma C1_message_is_generic :
  Http.fetch {| Http.server := createMCPServer sample_world |}
    (POST_mcp (JSON_stringify nope_call)) =
    Settles
      ({| status := 500;
          response_headers := [("Content-Type", "application/json");
                               ("Access-Control-Allow-Origin", "*")];
          response_body := BodyText (JSON_stringify (nope_answer JNull));
          webSocket := None |},
       [console_error "Error handling MCP request:" (Error "Unknown tool: nope")])
  ∧ JSON_parse (JSON_stringify (nope_answer JNull)) = Normal (nope_answer JNull)
  ∧ error_field (nope_answer JNull) "message" = Some (JStr "Internal error")
  ∧ String_includes "Internal error" "Unknown tool: nope" = false
  ∧ error_field (nope_answer JNull) "data" = Some (JStr "Unknown tool: nope")
  ∧ Ws.webSocketMessage (Ws.new_MCPServerObject sample_world) 1%positive
      (Ws.Text (JSON_stringify nope_call)) =
      [Ws.log (console_error "Error handling WebSocket message:"
                 (Error "Unknown tool: nope"));
       Ws.ws_send 1%positive (JSON_stringify (nope_answer (JNum 1)))].
Proof. repeat split. Qed.

(** ** Sessions *)

Lemma sent_to_app ws out1 out2 : sent_to ws (out1 ++ out2) = sent_to ws out1 ++ sent_to ws out2.
Proof.
  induction out1 as [|a out1 IH]; [reflexivity|].
  destruct a; simpl; try exact IH.
  case_decide; simpl; by rewrite IH.
Qed.

Lemma run_cons this ev evs :
  Ws.run this (ev :: evs) =
    (fst (Ws.run (fst (Ws.deliver this ev)) evs),
     snd (Ws.deliver this ev) ++ snd (Ws.run (fst (Ws.deliver this ev)) evs)).
Proof.
  simpl. destruct (Ws.deliver this ev) as [this1 out1]. simpl.
  by destruct (Ws.run this1 evs).
Qed.

Lemma run_app this pre evs :
  Ws.run this (pre ++ evs) =
    (fst (Ws.run (fst (Ws.run this pre)) evs),
     snd (Ws.run this pre) ++ snd (Ws.run (fst (Ws.run this pre)) evs)).
Proof.
  revert this. induction pre as [|ev pre IH]; intros this.
  - simpl. by destruct (Ws.run this evs).
  - rewrite <- app_comm_cons, !run_cons, IH. simpl. by rewrite app_assoc.
Qed.

(** A method only ever writes to the socket it is called with. *)
Lemma deliver_other this ev ws :
  event_socket ev ≠ ws → sent_to ws (snd (Ws.deliver this ev)) = [].
Proof.
  intros Hne. destruct ev as [ws'|ws' [s|bytes]|ws' code reason|ws' error];
    simpl in Hne |- *; try reflexivity.
  - by rewrite decide_False.
  - rewrite webSocketMessage_text.
    destruct (JSON_parse s) as [msg|e]; [|reflexivity].
    destruct (handleRequest (Ws.server this) msg) as [[r|]|e]; try reflexivity.
    + destruct (truthy (Some r)); [|reflexivity]. simpl. by rewrite decide_False.
    + destruct (get_property msg "id"); [|reflexivity]. simpl. by rewrite decide_False.
Qed.

Lemma run_other this pre ws :
  Forall (fun ev => event_socket ev ≠ ws) pre → sent_to ws (snd (Ws.run this pre)) = [].
Proof.
  intros H. revert this. induction H as [|ev pre Hev _ IH]; intros this; [reflexivity|].
  rewrite run_cons. simpl. by rewrite sent_to_app, (deliver_other _ _ _ Hev), IH.
Qed.

(** C6: accepting a socket adds it to the open set and performs, after
    [ws.accept()], exactly one send on it, of a frame whose method is
    [notifications/initialized].  Whatever events follow the accept, all
    they output comes after that frame; and in any sequence of events in
    which none before the accept is about the socket, that frame is the
    first one the socket is sent. *)
Theorem C6_accept_sends_initialized (this : Ws.MCPServerObject) (ws : WebSocket)
  (evs : list Ws.event) :
  let frame := JSON_stringify Ws.initMessage in
  let this' := fst (Ws.acceptWebSocket this ws) in
  ws ∈ Ws.sessions this'
  ∧ Ws.sessions this' = {[ws]} ∪ Ws.sessions this
  ∧ snd (Ws.acceptWebSocket this ws) = [Ws.ws_accept ws; Ws.ws_send ws frame]
  ∧ sent_to ws (snd (Ws.acceptWebSocket this ws)) = [frame]
  ∧ frame_method frame = Some (JStr "notifications/initialized")
  ∧ snd (Ws.run this (Ws.Accept ws :: evs)) =
      [Ws.ws_accept ws; Ws.ws_send ws frame] ++ snd (Ws.run this' evs)
  ∧ (∀ pre, Forall (fun ev => event_socket ev ≠ ws) pre →
       sent_to ws (snd (Ws.run this (pre ++ Ws.Accept ws :: evs))) =
         frame ::
         sent_to ws (snd (Ws.run (fst (Ws.acceptWebSocket (fst (Ws.run this pre)) ws)) evs))).
Proof.
  intros frame this'. repeat split.
  - simpl. apply elem_of_union_l. by apply elem_of_singleton.
  - simpl. by rewrite decide_True.
  - by rewrite run_cons.
  - intros pre Hpre. rewrite run_app. cbn [snd].
    rewrite sent_to_app, (run_other _ _ _ Hpre), run_cons. simpl.
    by rewrite decide_True.
Qed.

Lemma C6_accept_sends_initialized_witness :
  let this := Ws.new_MCPServerObject sample_world in
  let pre := [Ws.Accept 2%positive; Ws.Incoming 2%positive (Ws.Text "null")] in
  let evs := [Ws.Incoming 1%positive (Ws.Text (JSON_stringify zero_id_call))] in
  Forall (fun ev => event_socket ev ≠ 1%positive) pre
  ∧ sent_to 1%positive (snd (Ws.run this (pre ++ Ws.Accept 1%positive :: evs))) =
      [JSON_stringify Ws.initMessage;
       JSON_stringify (error_envelope JNull (Error "Unknown tool: nope"))].
Proof.
  assert (H : Forall (fun ev => event_socket ev ≠ 1%positive)
                [Ws.Accept 2%positive; Ws.Incoming 2%positive (Ws.Text "null")]).
  { repeat constructor; discriminate. }
  split; [exact H|].
  exact (proj2 (proj2 (proj2 (proj2 (proj2 (proj2
           (C6_accept_sends_initialized (Ws.new_MCPServerObject sample_world) 1%positive
              [Ws.Incoming 1%positive (Ws.Text (JSON_stringify zero_id_call))]))))))
           [Ws.Accept 2%positive; Ws.Incoming 2%positive (Ws.Text "null")] H).
Defined.

Lemma remove_absent (open : gset WebSocket) (ws : WebSocket) :
  ws ∉ open → open ∖ {[ws]} = open.
Proof. intros H. apply difference_disjoint_L. by apply disjoint_singleton_r. Qed.

Lemma removed_not_in (open : gset WebSocket) (ws : WebSocket) : ws ∉ open ∖ {[ws]}.
Proof. apply not_elem_of_difference. right. by apply elem_of_singleton. Qed.

Lemma remove_twice (open : gset WebSocket) (ws : WebSocket) :
  open ∖ {[ws]} ∖ {[ws]} = open ∖ {[ws]}.
Proof. apply remove_absent, removed_not_in. Qed.

(** C8: closing and failing remove the socket from the open set, and are
    total functions of the object.  Removing a socket that the set does not
    hold leaves the set as it is; so applying close or error handling a
    second time to the same socket, in any combination, gives the set that
    the first application gave, and the socket stays out of the set. *)
Theorem C8_close_idempotent (this : Ws.MCPServerObject) (ws : WebSocket)
  (code code' : Z) (reason reason' : string) (error error' : JsError) :
  let closed1 := fst (Ws.webSocketClose this ws code reason) in
  let failed1 := fst (Ws.webSocketError this ws error) in
  (ws ∉ Ws.sessions this →
     Ws.sessions closed1 = Ws.sessions this ∧ Ws.sessions failed1 = Ws.sessions this)
  ∧ (ws ∉ Ws.sessions closed1)
  ∧ (ws ∉ Ws.sessions failed1)
  ∧ Ws.sessions (fst (Ws.webSocketClose closed1 ws code' reason')) = Ws.sessions closed1
  ∧ Ws.sessions (fst (Ws.webSocketError closed1 ws error')) = Ws.sessions closed1
  ∧ Ws.sessions (fst (Ws.webSocketClose failed1 ws code' reason')) = Ws.sessions failed1
  ∧ Ws.sessions (fst (Ws.webSocketError failed1 ws error')) = Ws.sessions failed1
  ∧ Ws.sessions (fst (Ws.run this [Ws.Closed ws code reason; Ws.Closed ws code' reason'])) =
      Ws.sessions (fst (Ws.run this [Ws.Closed ws code reason])).
Proof.
  intros closed1 failed1. subst closed1 failed1. simpl.
  split; [intros H; split; by apply remove_absent|].
  repeat split; first [apply removed_not_in | apply remove_twice].
Qed.

Lemma C8_close_idempotent_witness :
  let this := fst (Ws.acceptWebSocket (Ws.new_MCPServerObject sample_world) 1%positive) in
  (2%positive ∉ Ws.sessions this)
  ∧ Ws.sessions (fst (Ws.webSocketClose this 2%positive 1000 "done")) = Ws.sessions this
  ∧ Ws.sessions (fst (Ws.webSocketError this 2%positive (Error "reset"))) = Ws.sessions this.
Proof.
  assert (H : 2%positive ∉
              Ws.sessions (fst (Ws.acceptWebSocket (Ws.new_MCPServerObject sample_world)
                                  1%positive))).
  { simpl. intros [H|H]%elem_of_union.
    - apply elem_of_singleton in H. discriminate H.
    - by apply not_elem_of_empty in H. }
  split; [exact H|].
  exact (proj1 (C8_close_idempotent
                  (fst (Ws.acceptWebSocket (Ws.new_MCPServerObject sample_world) 1%positive))
                  2%positive 1000 1000 "done" "done" (Error "reset") (Error "reset")) H).
Defined.


(** ** The catalogs against the handlers *)

Lemma has_type_string v : has_type "string" v = true → ∃ s, v = JStr s.
Proof. destruct v; simpl; try discriminate. eauto. Qed.

Lemma has_type_number v : has_type "number" v = true → ∃ q, v = JNum q.
Proof. destruct v; simpl; try discriminate. eauto. Qed.

(** A call of a tool that [tools/list] advertises returns exactly when the
    arguments satisfy the required properties of the advertised input
    schema, or the schema requires nothing (such a tool takes anything, even
    no arguments at all); and what it returns is one text content item. *)
Theorem tool_call_agrees_with_schema (w : world) (d schema : json) (name : string)
  (args : option json) :
  d ∈ descriptors "tools" ListToolsHandler →
  string_field "name" d = Some name →
  field "inputSchema" d = Some schema →
  (succeeds (CallToolHandler w name args) ↔
     satisfies schema args = true ∨ required_keys schema = [])
  ∧ (∀ r, CallToolHandler w name args = Normal r → ∃ text, r = text_content text).
Proof.
  intros Hd Hname Hschema.
  apply elem_of_cons in Hd as [->|Hd]; [|apply elem_of_cons in Hd as [->|Hd];
    [|apply elem_of_cons in Hd as [->|Hd]; [|by apply elem_of_nil in Hd]]];
    simpl in Hname, Hschema; injection Hname as <-; injection Hschema as <-.
  - unfold CallToolHandler. simpl. split.
    + split.
      * intros [r Hr]. left.
        destruct args as [[| | | | |fields]|]; try discriminate. simpl in *.
        destruct (lookup_field "text" fields) as [[| | |s| |]|]; try discriminate.
        reflexivity.
      * intros [H|H]; [|discriminate].
        destruct args as [[| | | | |fields]|]; try discriminate. simpl in *.
        destruct (lookup_field "text" fields) as [v|]; [|discriminate].
        rewrite andb_true_r in H. apply has_type_string in H as [s ->].
        eexists. reflexivity.
    + intros r.
      destruct args as [[| | | | |fields]|]; try discriminate. simpl.
      destruct (lookup_field "text" fields) as [[| | |s| |]|]; try discriminate.
      intros [= <-]. eauto.
  - unfold CallToolHandler. simpl. split.
    + split; [intros _; by right|intros _; eexists; reflexivity].
    + intros r [= <-]. eauto.
  - unfold CallToolHandler. simpl. split.
    + split.
      * intros [r Hr]. left.
        destruct args as [[| | | | |fields]|]; try discriminate. simpl in *.
        destruct (lookup_field "min" fields) as [[| |lo| | |]|]; try discriminate.
        destruct (lookup_field "max" fields) as [[| |hi| | |]|]; try discriminate.
        reflexivity.
      * intros [H|H]; [|discriminate].
        destruct args as [[| | | | |fields]|]; try discriminate. simpl in *.
        destruct (lookup_field "min" fields) as [lo|]; [|discriminate].
        destruct (lookup_field "max" fields) as [hi|];
          [|by rewrite andb_false_r in H].
        rewrite andb_true_r in H. apply andb_true_iff in H as [Hlo Hhi].
        apply has_type_number in Hlo as [a ->]. apply has_type_number in Hhi as [b ->].
        eexists. reflexivity.
    + intros r.
      destruct args as [[| | | | |fields]|]; try discriminate. simpl.
      destruct (lookup_field "min" fields) as [[| |lo| | |]|]; try discriminate.
      destruct (lookup_field "max" fields) as [[| |hi| | |]|]; try discriminate.
      intros [= <-]. eauto.
Qed.

Lemma tool_call_agrees_with_schema_witness :
  succeeds (CallToolHandler sample_world "random_number"
              (Some (JObj [("min", JNum 1%Q); ("max", JNum 6%Q); ("seed", JStr "x")])))
  ∧ ¬ succeeds (CallToolHandler sample_world "random_number"
                  (Some (JObj [("min", JNum 1%Q); ("max", JStr "6")])))
  ∧ succeeds (CallToolHandler sample_world "get_time" None).
Proof.
  assert (Hd : ∀ i d, descriptors "tools" ListToolsHandler !! i = Some d →
                      d ∈ descriptors "tools" ListToolsHandler).
  { intros i d H. by apply list_elem_of_lookup_2 in H. }
  split; [|split].
  - apply (proj1 (tool_call_agrees_with_schema sample_world _ _ "random_number" _
                    (Hd 2%nat _ eq_refl) eq_refl eq_refl)).
    left. reflexivity.
  - intros H.
    apply (proj1 (tool_call_agrees_with_schema sample_world _ _ "random_number" _
                    (Hd 2%nat _ eq_refl) eq_refl eq_refl)) in H as [H|H];
      discriminate H.
  - apply (proj1 (tool_call_agrees_with_schema sample_world _ _ "get_time" _
                    (Hd 1%nat _ eq_refl) eq_refl eq_refl)).
    right. reflexivity.
Defined.

(** A [prompts/get] of a prompt that [prompts/list] advertises returns
    exactly when the arguments are an object in which every advertised
    argument is a string when present, and is present when required; and
    what it returns is a description with one user message of type text. *)
Theorem prompt_get_agrees_with_catalog (d : json) (name : string) (args : option json) :
  d ∈ descriptors "prompts" ListPromptsHandler →
  string_field "name" d = Some name →
  (succeeds (GetPromptHandler name args) ↔ prompt_arguments_ok d args = true)
  ∧ (∀ r, GetPromptHandler name args = Normal r →
       ∃ description text, r = prompt_result description text).
Proof.
  intros Hd Hname.
  apply elem_of_cons in Hd as [->|Hd]; [|apply elem_of_cons in Hd as [->|Hd];
    [|by apply elem_of_nil in Hd]];
    simpl in Hname; injection Hname as <-; unfold GetPromptHandler; simpl.
  - destruct args as [[| | | | |fields]|];
      try (split; [split; [intros [r Hr]; discriminate Hr|discriminate]|discriminate]).
    simpl. unfold argument_ok. simpl.
    destruct (lookup_field "code" fields) as [[| | |code| |]|];
      try (split; [split; [intros [r Hr]; discriminate Hr|discriminate]|discriminate]).
    destruct (lookup_field "language" fields) as [[| | |language| |]|]; simpl;
      try (split; [split; [intros [r Hr]; discriminate Hr|discriminate]|discriminate]);
      (split; [split; [reflexivity|intros _; eexists; reflexivity]|
               intros r [= <-]; eauto]).
  - destruct args as [[| | | | |fields]|];
      try (split; [split; [intros [r Hr]; discriminate Hr|discriminate]|discriminate]).
    simpl. unfold argument_ok. simpl.
    destruct (lookup_field "error" fields) as [[| | |error| |]|];
      try (split; [split; [intros [r Hr]; discriminate Hr|discriminate]|discriminate]).
    destruct (lookup_field "context" fields) as [[| | |context| |]|]; simpl;
      try (split; [split; [intros [r Hr]; discriminate Hr|discriminate]|discriminate]);
      (split; [split; [reflexivity|intros _; eexists; reflexivity]|
               intros r [= <-]; eauto]).
Qed.

Lemma prompt_get_agrees_with_catalog_witness :
  succeeds (GetPromptHandler "debug_help" (Some (JObj [("error", JStr "E42")])))
  ∧ ¬ succeeds (GetPromptHandler "debug_help"
                  (Some (JObj [("error", JStr "E42"); ("context", JNull)])))
  ∧ ¬ succeeds (GetPromptHandler "debug_help" (Some (JObj [("context", JStr "c")]))).
Proof.
  assert (Hd : ∀ i d, descriptors "prompts" ListPromptsHandler !! i = Some d →
                      d ∈ descriptors "prompts" ListPromptsHandler).
  { intros i d H. by apply list_elem_of_lookup_2 in H. }
  split; [|split].
  - by apply (proj1 (prompt_get_agrees_with_catalog _ "debug_help" _
                       (Hd 1%nat _ eq_refl) eq_refl)).
  - intros H.
    apply (proj1 (prompt_get_agrees_with_catalog _ "debug_help" _
                    (Hd 1%nat _ eq_refl) eq_refl)) in H. discriminate H.
  - intros H.
    apply (proj1 (prompt_get_agrees_with_catalog _ "debug_help" _
                    (Hd 1%nat _ eq_refl) eq_refl)) in H. discriminate H.
Defined.

(** An optional prompt argument given as the empty string is treated as if
    it were not given: the message is the one built without it. *)
Theorem empty_optional_argument_is_absent (code error : string) :
  GetPromptHandler "explain_code"
    (Some (JObj [("code", JStr code); ("language", JStr EmptyString)])) =
  GetPromptHandler "explain_code" (Some (JObj [("code", JStr code)]))
  ∧ GetPromptHandler "debug_help"
      (Some (JObj [("error", JStr error); ("context", JStr EmptyString)])) =
    GetPromptHandler "debug_help" (Some (JObj [("error", JStr error)]))
  ∧ GetPromptHandler "explain_code" (Some (JObj [("code", JStr code)])) =
      Normal (prompt_result "Explain how this code works"
        ("Please explain how this code works:" +:+ nl +:+ nl +:+ "```" +:+ nl +:+
         code +:+ nl +:+ "```" +:+ nl +:+ nl +:+
         "Break down the logic and explain what each part does.")).
Proof. repeat split. Qed.

(** A [resources/read] returns exactly for the URIs that [resources/list]
    advertises, and then returns one content item carrying the requested
    URI and the MIME type advertised for it. *)
Theorem resource_read_agrees_with_catalog (w : world) (uri : string) :
  (succeeds (ReadResourceHandler w uri) ↔ uri ∈ registry Resource)
  ∧ (∀ r, ReadResourceHandler w uri = Normal r →
       ∃ d mimeType text,
         d ∈ descriptors "resources" ListResourcesHandler ∧
         string_field "uri" d = Some uri ∧
         string_field "mimeType" d = Some mimeType ∧
         r = JObj [("contents", JArr [JObj [("uri", JStr uri);
                                             ("mimeType", JStr mimeType);
                                             ("text", JStr text)]])]).
Proof.
  unfold ReadResourceHandler.
  destruct (String.eqb_spec uri "cloudflare://worker-info") as [->|H1].
  { split.
    - split; [intros _; apply list_elem_of_here|intros _; eexists; reflexivity].
    - intros r [= <-]. eexists _, _, _. split; [apply list_elem_of_here|].
      repeat split. }
  destruct (String.eqb_spec uri "cloudflare://sample-data") as [->|H2].
  { split.
    - split; [intros _; apply list_elem_of_further, list_elem_of_here|
              intros _; eexists; reflexivity].
    - intros r [= <-]. eexists _, _, _.
      split; [apply list_elem_of_further, list_elem_of_here|]. repeat split. }
  split; [|discriminate]. split.
  - intros [r Hr]. discriminate Hr.
  - intros Hin. apply elem_of_cons in Hin as [->|Hin]; [contradiction|].
    apply elem_of_cons in Hin as [->|Hin]; [contradiction|]. by apply elem_of_nil in Hin.
Qed.

(** ** The range of [random_number] *)

Lemma Number_sub_integers a b :
  - 2 ^ 53 <= b - a <= 2 ^ 53 →
  Number_sub (inject_Z b) (inject_Z a) = inject_Z (b - a).
Proof.
  intros H. unfold Number_sub.
  assert (E : (inject_Z b - inject_Z a == inject_Z (b - a))%Q).
  { unfold Qeq. simpl. lia. }
  by rewrite (round64_comp _ _ E), round64_integer.
Qed.

Lemma Number_add_integers a b :
  - 2 ^ 53 <= a + b <= 2 ^ 53 →
  Number_add (inject_Z a) (inject_Z b) = inject_Z (a + b).
Proof.
  intros H. unfold Number_add.
  assert (E : (inject_Z a + inject_Z b == inject_Z (a + b))%Q).
  { unfold Qeq. simpl. lia. }
  by rewrite (round64_comp _ _ E), round64_integer.
Qed.

(** With integer bounds [min <= max] that binary64 holds exactly, as does
    their distance, the tool reports an integer of the closed range,
    whatever the draw. *)
Theorem random_number_within_integer_bounds (w : world) (a b : Z) :
  is_double (Math_random w) → (0 <= Math_random w)%Q → (Math_random w < 1)%Q →
  - 2 ^ 53 <= a → a <= b → b <= 2 ^ 53 → b - a < 2 ^ 53 →
  ∃ k : Z, a <= k <= b ∧
    CallToolHandler w "random_number"
      (Some (JObj [("min", JNum (inject_Z a)); ("max", JNum (inject_Z b))])) =
    Normal (text_content
      ("Random number between " +:+ Number_toString (inject_Z a) +:+ " and " +:+
       Number_toString (inject_Z b) +:+ ": " +:+ Number_toString (inject_Z k))).
Proof.
  intros Hd Hlo Hhi Ha Hab Hb Hwidth. rewrite random_number_handler.
  unfold randomNum, Math_floor.
  rewrite Number_sub_integers by lia.
  change 1%Q with (inject_Z 1) at 1. rewrite (Number_add_integers (b - a) 1) by lia.
  destruct (draw_times_width _ (b - a + 1) Hd Hlo Hhi) as [Hx0 Hx1]; [lia|].
  set (x := Number_mul (Math_random w) (inject_Z (b - a + 1))) in *.
  assert (Hf0 : 0 <= Qfloor x).
  { change 0 with (Qfloor 0). by apply Qfloor_resp_le. }
  assert (Hf1 : Qfloor x < b - a + 1).
  { rewrite Zlt_Qlt. eapply Qle_lt_trans; [apply Qfloor_le|exact Hx1]. }
  exists (Qfloor x + a). split; [lia|].
  by rewrite Number_add_integers by lia.
Qed.

Lemma random_number_within_integer_bounds_witness :
  (is_double (Math_random sample_world) ∧ (0 <= Math_random sample_world)%Q ∧
   (Math_random sample_world < 1)%Q)
  ∧ ∃ k : Z, -3 <= k <= 3 ∧
      CallToolHandler sample_world "random_number"
        (Some (JObj [("min", JNum (inject_Z (-3))); ("max", JNum (inject_Z 3))])) =
      Normal (text_content
        ("Random number between " +:+ Number_toString (inject_Z (-3)) +:+ " and " +:+
         Number_toString (inject_Z 3) +:+ ": " +:+ Number_toString (inject_Z k))).
Proof.
  assert (Hd : is_double (Math_random sample_world)) by (vm_compute; reflexivity).
  assert (Hlo : (0 <= Math_random sample_world)%Q) by (vm_compute; discriminate).
  assert (Hhi : (Math_random sample_world < 1)%Q) by reflexivity.
  split; [by repeat split|].
  apply (random_number_within_integer_bounds sample_world (-3) 3 Hd Hlo Hhi); lia.
Defined.

(** Reversed integer bounds are not rejected: with [max < min] the tool
    reports an integer from [max + 1] to [min], so never [max] itself. *)
Theorem random_number_reversed_bounds (w : world) (a b : Z) :
  is_double (Math_random w) → (0 <= Math_random w)%Q → (Math_random w < 1)%Q →
  - 2 ^ 53 <= b → b < a → a <= 2 ^ 53 → a - b <= 2 ^ 53 →
  ∃ k : Z, b < k <= a ∧
    CallToolHandler w "random_number"
      (Some (JObj [("min", JNum (inject_Z a)); ("max", JNum (inject_Z b))])) =
    Normal (text_content
      ("Random number between " +:+ Number_toString (inject_Z a) +:+ " and " +:+
       Number_toString (inject_Z b) +:+ ": " +:+ Number_toString (inject_Z k))).
Proof.
  intros Hd Hlo Hhi Hb Hba Ha Hwidth. rewrite random_number_handler.
  unfold randomNum, Math_floor.
  rewrite Number_sub_integers by lia.
  change 1%Q with (inject_Z 1) at 1. rewrite (Number_add_integers (b - a) 1) by lia.
  destruct (Z.eq_dec (b - a + 1) 0) as [Hz|Hnz].
  - rewrite Hz. unfold Number_mul.
    assert (E : (Math_random w * inject_Z 0 == 0)%Q) by ring.
    rewrite (round64_comp _ _ E).
    replace (Qfloor (round64 0)) with 0 by (vm_compute; reflexivity).
    exists a. split; [lia|]. by rewrite Number_add_integers by lia.
  - destruct (draw_times_negative _ (b - a + 1) Hd Hlo Hhi) as [Hx0 Hx1]; [lia|].
    set (x := Number_mul (Math_random w) (inject_Z (b - a + 1))) in *.
    assert (Hf0 : Qfloor x <= 0).
    { rewrite Zle_Qle. eapply Qle_trans; [apply Qfloor_le|exact Hx1]. }
    assert (Hf1 : b - a + 1 <= Qfloor x).
    { rewrite <- (Qfloor_Z (b - a + 1)). apply Qfloor_resp_le. by apply Qlt_le_weak. }
    exists (Qfloor x + a). split; [lia|].
    by rewrite Number_add_integers by lia.
Qed.

Lemma random_number_reversed_bounds_witness :
  (is_double (Math_random sample_world) ∧ (0 <= Math_random sample_world)%Q ∧
   (Math_random sample_world < 1)%Q)
  ∧ ∃ k : Z, 1 < k <= 10 ∧
      CallToolHandler sample_world "random_number"
        (Some (JObj [("min", JNum (inject_Z 10)); ("max", JNum (inject_Z 1))])) =
      Normal (text_content
        ("Random number between " +:+ Number_toString (inject_Z 10) +:+ " and " +:+
         Number_toString (inject_Z 1) +:+ ": " +:+ Number_toString (inject_Z k))).
Proof.
  assert (Hd : is_double (Math_random sample_world)) by (vm_compute; reflexivity).
  assert (Hlo : (0 <= Math_random sample_world)%Q) by (vm_compute; discriminate).
  assert (Hhi : (Math_random sample_world < 1)%Q) by reflexivity.
  split; [by repeat split|].
  apply (random_number_reversed_bounds sample_world 10 1 Hd Hlo Hhi); lia.
Defined.

(** ** The routes of the HTTP variant *)

(** The HTTP worker consults the Durable Object only for [POST /mcp]: for
    any other request the response and the log are the same whatever the
    server is, and nothing is logged. *)
Theorem http_server_only_for_post_mcp (stub1 stub2 : Http.MCPServerObject)
  (request : Request) :
  is_post_mcp request = false →
  Http.fetch stub1 request = Http.fetch stub2 request
  ∧ ∃ r, Http.fetch stub1 request = Settles (r, []).
Proof.
  unfold is_post_mcp, Http.fetch. intros ->.
  destruct (String.eqb (method request) "OPTIONS"); [eauto|].
  destruct (String.eqb (pathname (url request)) "/"); eauto.
Qed.

Lemma http_server_only_for_post_mcp_witness :
  let get_mcp :=
    {| method := "GET";
       url := {| protocol := "https:"; host := "example.workers.dev"; pathname := "/mcp" |};
       headers := []; body := EmptyString |} in
  is_post_mcp get_mcp = false
  ∧ Http.fetch {| Http.server := createMCPServer sample_world |} get_mcp =
      Http.fetch {| Http.server := {| handleRequest := fun _ => Throw SyntaxError |} |} get_mcp
  ∧ Http.fetch {| Http.server := createMCPServer sample_world |} get_mcp =
      Settles ({| status := 404; response_headers := [];
                  response_body := BodyText "Not Found"; webSocket := None |}, []).
Proof.
  split; [reflexivity|]. split; [|reflexivity].
  exact (proj1 (http_server_only_for_post_mcp
                  {| Http.server := createMCPServer sample_world |}
                  {| Http.server := {| handleRequest := fun _ => Throw SyntaxError |} |}
                  {| method := "GET";
                     url := {| protocol := "https:"; host := "example.workers.dev";
                               pathname := "/mcp" |};
                     headers := []; body := EmptyString |} eq_refl)).
Defined.

(** The outcome of the HTTP worker.  Its promise stays pending exactly for
    a [POST /mcp] whose message the server answers with a response to send.
    When it settles, the status is 200, 500 or 404: 404 exactly when the
    request is no preflight, no [POST /mcp] and not for the root path; 500
    exactly when a [POST /mcp] faults, and only then is anything logged;
    every response other than the 404 allows any origin; and a streamed
    body is a closed stream without a frame. *)
Theorem http_fetch_outcome (stub : Http.MCPServerObject) (request : Request) :
  (Http.fetch stub request = Never ↔
     is_post_mcp request = true ∧
     ∃ response, resolve stub request = Normal response ∧ truthy response = true)
  ∧ ∀ r log, Http.fetch stub request = Settles (r, log) →
      (status r = 200 ∨ status r = 500 ∨ status r = 404)
      ∧ (status r = 404 ↔
           method request ≠ "OPTIONS" ∧ is_post_mcp request = false ∧
           pathname (url request) ≠ "/")
      ∧ (status r = 500 ↔
           method request ≠ "OPTIONS" ∧ is_post_mcp request = true ∧
           ∃ error, resolve stub request = Throw error)
      ∧ (log ≠ [] ↔ status r = 500)
      ∧ (status r ≠ 404 →
           Headers_get "Access-Control-Allow-Origin" (response_headers r) = Some "*")
      ∧ (∀ readable, response_body r = BodyStream readable →
           readable = {| chunks := []; closed := true |}).
Proof.
  destruct (is_post_mcp request) eqn:Hpost.
  - pose proof Hpost as Hpost'. apply andb_true_iff in Hpost' as [Hm Hp].
    apply String.eqb_eq in Hm, Hp.
    assert (Ho : method request ≠ "OPTIONS") by (rewrite Hm; discriminate).
    rewrite (fetch_post_mcp stub request Hm Hp).
    destruct (resolve stub request) as [response|e].
    + destruct (truthy response) eqn:Htruthy.
      * split; [split; [eauto|done]|]. intros r log [=].
      * split.
        { split; [done|]. intros (_ & response' & [= <-] & ?). congruence. }
        intros r log [= <- <-]. cbn [status response_headers response_body event_stream].
        split; [by left|]. split; [split; [done|by intros (_ & ? & _)]|].
        split; [split; [done|by intros (_ & _ & error & ?)]|].
        split; [done|]. split; [done|]. by intros readable [= <-].
    + split; [split; [done|by intros (_ & response & ? & _)]|].
      intros r log [= <- <-]. cbn [status response_headers response_body error_response].
      split; [by right; left|]. split; [split; [done|by intros (_ & ? & _)]|].
      split; [split; [intros _; eauto|done]|]. split; [done|]. split; done.
  - split; [split; [|by intros (? & _)]|].
    { unfold Http.fetch. fold (is_post_mcp request). rewrite Hpost.
      destruct (String.eqb (method request) "OPTIONS"); [done|].
      destruct (String.eqb (pathname (url request)) "/"); done. }
    unfold Http.fetch. fold (is_post_mcp request). rewrite Hpost.
    destruct (String.eqb_spec (method request) "OPTIONS") as [Ho|Ho];
      [|destruct (String.eqb_spec (pathname (url request)) "/") as [Hr|Hr]];
      intros r log [= <- <-]; cbn [status response_headers response_body].
    + split; [by left|]. split; [split; [done|by intros (? & _)]|].
      split; [split; [done|by intros (? & _)]|]. split; [done|]. split; done.
    + split; [by left|]. split; [split; [done|by intros (_ & _ & ?)]|].
      split; [split; [done|by intros (_ & ? & _)]|]. split; [done|]. split; done.
    + split; [by right; right|]. split; [done|].
      split; [split; [done|by intros (_ & ? & _)]|]. split; [done|]. split; done.
Qed.

(** ** The WebSocket variant: sessions *)

Lemma deliver_server this ev : Ws.server (fst (Ws.deliver this ev)) = Ws.server this.
Proof. by destruct ev. Qed.

Lemma deliver_sessions this ev ws :
  ws ∈ Ws.sessions (fst (Ws.deliver this ev)) ↔
    lifecycle ws ev = Some true ∨ (lifecycle ws ev = None ∧ ws ∈ Ws.sessions this).
Proof.
  destruct ev as [ws'|ws' m|ws' code reason|ws' error]; simpl.
  - rewrite elem_of_union, elem_of_singleton. case_decide; intuition congruence.
  - intuition congruence.
  - rewrite elem_of_difference, elem_of_singleton. case_decide; intuition congruence.
  - rewrite elem_of_difference, elem_of_singleton. case_decide; intuition congruence.
Qed.

(** After any sequence of events a socket is in the open set exactly when
    the last accept, close or error about it was an accept, or there was
    none and it was in the set before; messages never change the set, and
    the server is never replaced. *)
Theorem sessions_after_run (this : Ws.MCPServerObject) (ws : WebSocket)
  (evs : list Ws.event) :
  (ws ∈ Ws.sessions (fst (Ws.run this evs)) ↔
     last_lifecycle ws evs = Some true ∨
     (last_lifecycle ws evs = None ∧ ws ∈ Ws.sessions this))
  ∧ Ws.server (fst (Ws.run this evs)) = Ws.server this.
Proof.
  revert this. induction evs as [|ev evs IH]; intros this.
  - simpl. intuition congruence.
  - rewrite run_cons. cbn [fst last_lifecycle].
    destruct (IH (fst (Ws.deliver this ev))) as [IHs IHv].
    split; [|by rewrite IHv, deliver_server].
    rewrite IHs, deliver_sessions.
    destruct (last_lifecycle ws evs) as [[|]|]; intuition congruence.
Qed.

Lemma socket_actions_app ws out1 out2 :
  socket_actions ws (out1 ++ out2) = socket_actions ws out1 ++ socket_actions ws out2.
Proof.
  induction out1 as [|a out1 IH]; [reflexivity|].
  simpl. destruct (acts_on ws a); simpl; by rewrite IH.
Qed.

Lemma webSocketMessage_cases this ws message :
  let out := Ws.webSocketMessage this ws message in
  out = []
  ∨ (∃ data, out = [Ws.ws_send ws data])
  ∨ (∃ error data, out = [Ws.log (console_error "Error handling WebSocket message:" error);
                          Ws.ws_send ws data])
  ∨ (∃ error, out = [Ws.log (console_error "Error handling WebSocket message:" error);
                     Ws.ws_close ws 1011 "Internal error"]).
Proof.
  destruct message as [s|bytes]; cbn zeta.
  - rewrite webSocketMessage_text.
    destruct (JSON_parse s) as [msg|e]; [|right; right; right; eauto].
    destruct (handleRequest (Ws.server this) msg) as [[r|]|e]; [| |].
    + destruct (truthy (Some r)); [right; left; eauto|by left].
    + by left.
    + destruct (get_property msg "id"); [right; right; left; eauto|right; right; right; eauto].
  - rewrite webSocketMessage_binary. right; right; right; eauto.
Qed.

(** One inbound message makes [webSocketMessage] perform at most one action
    on the socket, a send or the close with code 1011, never both; it acts
    on no other socket; and it closes or logs only after a fault. *)
Theorem ws_message_one_action (this : Ws.MCPServerObject) (ws : WebSocket)
  (message : Ws.Message) :
  let out := Ws.webSocketMessage this ws message in
  (socket_actions ws out = []
   ∨ (∃ data, socket_actions ws out = [Ws.ws_send ws data])
   ∨ socket_actions ws out = [Ws.ws_close ws 1011 "Internal error"])
  ∧ (∀ ws', ws' ≠ ws → socket_actions ws' out = [])
  ∧ (∀ response, Ws.handle_message this ws message = Normal response →
       out = response ∧ ¬ closes out ∧ ∀ entry, Ws.log entry ∉ out).
Proof.
  intros out. subst out. split; [|split].
  - destruct (webSocketMessage_cases this ws message)
      as [->|[[data ->]|[(error & data & ->)|[error ->]]]]; simpl;
      rewrite ?bool_decide_eq_true_2 by done; eauto.
  - intros ws' Hne.
    destruct (webSocketMessage_cases this ws message)
      as [->|[[data ->]|[(error & data & ->)|[error ->]]]]; simpl;
      rewrite ?bool_decide_eq_false_2 by done; done.
  - intros response Hr. unfold Ws.webSocketMessage. rewrite Hr. cbn [try_catch].
    split; [done|].
    assert (Hshape : response = [] ∨ ∃ data, response = [Ws.ws_send ws data]).
    { unfold Ws.handle_message in Hr.
      destruct message as [s|bytes]; [|discriminate Hr]. simpl in Hr.
      destruct (JSON_parse s) as [msg|e]; [|discriminate Hr]. simpl in Hr.
      destruct (handleRequest (Ws.server this) msg) as [[r|]|e]; simpl in Hr;
        [| |discriminate Hr].
      - match type of Hr with context [if ?b then _ else _] => destruct b end;
          injection Hr as <-; eauto.
      - injection Hr as <-. by left. }
    destruct Hshape as [->|[data ->]]; split.
    + intros (ws' & code & reason & H). by apply elem_of_nil in H.
    + intros entry H. by apply elem_of_nil in H.
    + intros (ws' & code & reason & H). absurd_member H.
    + intros entry H. absurd_member H.
Qed.

Lemma deliver_actions_other this ev ws :
  event_socket ev ≠ ws → socket_actions ws (snd (Ws.deliver this ev)) = [].
Proof.
  intros Hne. destruct ev as [ws'|ws' m|ws' code reason|ws' error];
    simpl in Hne |- *; try reflexivity.
  - by rewrite !bool_decide_eq_false_2.
  - destruct (webSocketMessage_cases this ws' m)
      as [->|[[data ->]|[(error & data & ->)|[error ->]]]]; simpl;
      rewrite ?bool_decide_eq_false_2 by done; done.
Qed.

Lemma deliver_output_server this1 this2 ev :
  Ws.server this1 = Ws.server this2 →
  snd (Ws.deliver this1 ev) = snd (Ws.deliver this2 ev).
Proof.
  intros H. destruct ev as [ws'|ws' m|ws' code reason|ws' error]; simpl; try reflexivity.
  unfold Ws.webSocketMessage, Ws.handle_message. by rewrite H.
Qed.

Lemma run_output_server this1 this2 evs :
  Ws.server this1 = Ws.server this2 →
  snd (Ws.run this1 evs) = snd (Ws.run this2 evs).
Proof.
  revert this1 this2. induction evs as [|ev evs IH]; intros this1 this2 H; [reflexivity|].
  rewrite !run_cons. cbn [snd]. rewrite (deliver_output_server _ _ _ H).
  f_equal. apply IH. by rewrite !deliver_server.
Qed.

(** The object never reads the open set and never broadcasts: the output
    of a run of events is the same from any open set, and a run in which
    no event is about a socket performs no action on that socket. *)
Theorem ws_no_broadcast (this : Ws.MCPServerObject) (open : gset WebSocket)
  (ws : WebSocket) (evs : list Ws.event) :
  snd (Ws.run this evs) =
    snd (Ws.run {| Ws.server := Ws.server this; Ws.sessions := open |} evs)
  ∧ ((∀ ev, ev ∈ evs → event_socket ev ≠ ws) →
     socket_actions ws (snd (Ws.run this evs)) = []).
Proof.
  split; [by apply run_output_server|].
  revert this. induction evs as [|ev evs IH]; intros this Hother; [reflexivity|].
  rewrite run_cons. cbn [snd]. rewrite socket_actions_app.
  rewrite deliver_actions_other by (apply Hother; left).
  apply IH. intros ev' Hin. apply Hother. by right.
Qed.

(** ** Malformed input *)

(** A [POST /mcp] whose body is not JSON (the empty body included) never
    reaches the server: whatever the server is, the answer is the 500
    response whose envelope has id [null] and the parser's message as
    data, and the fault is logged once. *)
Theorem http_malformed_body_rejected (stub : Http.MCPServerObject) (request : Request)
  (error : JsError) :
  is_post_mcp request = true →
  JSON_parse (body request) = Throw error →
  Http.fetch stub request =
    Settles
      ({| status := 500;
          response_headers := [("Content-Type", "application/json");
                               ("Access-Control-Allow-Origin", "*")];
          response_body := BodyText (JSON_stringify (error_envelope JNull error));
          webSocket := None |},
       [console_error "Error handling MCP request:" error]).
Proof.
  intros Hpost Hparse. apply andb_true_iff in Hpost as [Hm Hp].
  apply String.eqb_eq in Hm, Hp.
  rewrite (fetch_post_mcp _ _ Hm Hp). unfold resolve. by rewrite Hparse.
Qed.

Lemma http_malformed_body_rejected_witness :
  is_post_mcp (POST_mcp EmptyString) = true
  ∧ JSON_parse (body (POST_mcp EmptyString)) = Throw SyntaxError
  ∧ Http.fetch {| Http.server := {| handleRequest := fun _ => Normal (Some (JBool true)) |} |}
      (POST_mcp EmptyString) =
    Settles
      ({| status := 500;
          response_headers := [("Content-Type", "application/json");
                               ("Access-Control-Allow-Origin", "*")];
          response_body := BodyText (JSON_stringify (error_envelope JNull SyntaxError));
          webSocket := None |},
       [console_error "Error handling MCP request:" SyntaxError]).
Proof.
  split; [reflexivity|]. split; [reflexivity|].
  exact (http_malformed_body_rejected
           {| Http.server := {| handleRequest := fun _ => Normal (Some (JBool true)) |} |}
           (POST_mcp EmptyString) SyntaxError eq_refl eq_refl).
Defined.

(** A text frame that is not JSON (the empty frame included) gets no error
    envelope: the server is not consulted, the fallback parse fails like
    the first one, and the connection is closed with code 1011. *)
Theorem ws_malformed_text_closes (this : Ws.MCPServerObject) (ws : WebSocket)
  (s : string) (error : JsError) :
  JSON_parse s = Throw error →
  Ws.webSocketMessage this ws (Ws.Text s) =
    [Ws.log (console_error "Error handling WebSocket message:" error);
     Ws.ws_close ws 1011 "Internal error"].
Proof. intros H. by rewrite webSocketMessage_text, H. Qed.

Lemma ws_malformed_text_closes_witness :
  JSON_parse "{id: 1}" = Throw SyntaxError
  ∧ Ws.webSocketMessage (Ws.new_MCPServerObject sample_world) 1%positive (Ws.Text "{id: 1}") =
      [Ws.log (console_error "Error handling WebSocket message:" SyntaxError);
       Ws.ws_close 1%positive 1011 "Internal error"].
Proof.
  split; [reflexivity|].
  exact (ws_malformed_text_closes (Ws.new_MCPServerObject sample_world) 1%positive
           "{id: 1}" SyntaxError eq_refl).
Defined.
